(** * Surface-aware Elo ratings: a shallow embedding of [TennisEloSystem]

    The development follows [src/ratings/elo_system.py].  The engine object
    ([self]) is a record that is threaded through a small state-and-exception
    monad; the two levels of dictionaries ([self.ratings], a [defaultdict]
    of plain [dict]s) are finite maps keyed by strings; the snapshot list
    ([self.match_ratings]) is a list that is only ever appended to.

    Arithmetic is kept behind the interface [Numeric], because the Python
    code mixes [int] and [float] and calls the C library for [**].  The
    structural results hold for every instance; the numeric scenarios are
    stated for the instance of the real numbers. *)

From Stdlib Require Import ZArith Reals Lra Sorted Permutation.
From stdpp Require Import gmap strings list fin_maps sorting.

Set Default Proof Using "Type".
Open Scope string_scope.
Open Scope list_scope.

(** ** Numbers *)

(** The operations the engine applies to ratings.  [of_Z] stands for an
    integer literal, [pow] for the Python operator [**].  The operations
    are total: rounding, and the [OverflowError] that [**] raises on floats
    for an exponent beyond about 308, are not represented. *)
Class Numeric (num : Type) := {
  of_Z : Z → num;
  add : num → num → num;
  sub : num → num → num;
  mul : num → num → num;
  div : num → num → num;
  pow : num → num → num
}.

Declare Scope py_scope.
Delimit Scope py_scope with py.
Infix "+" := add : py_scope.
Infix "-" := sub : py_scope.
Infix "*" := mul : py_scope.
Infix "/" := div : py_scope.
Infix "**" := pow (at level 30, right associativity) : py_scope.

(** Real numbers: [a ** b] is [exp (b * ln a)]. *)
#[export] Instance R_Numeric : Numeric R := {
  of_Z := IZR;
  add := Rplus;
  sub := Rminus;
  mul := Rmult;
  div := Rdiv;
  pow := Rpower
}.

(** ** Data *)

(** One row of [matches_df], restricted to the columns the loop reads.
    A date is the ordinal of a calendar day, so that the order used by
    [sort_values('date')] is [Z.le] and [pd.to_datetime] is the identity. *)
Record MatchRecord := {
  m_date : Z;
  m_surface : string;
  p1_id : string;
  p2_id : string;
  m_winner_id : string
}.

(** The dictionary appended to [self.match_ratings] (lines 39-49). *)
Record Snapshot (num : Type) := {
  match_idx : nat;
  date : Z;
  surface : string;
  winner_id : string;
  loser_id : string;
  winner_elo_overall : num;
  loser_elo_overall : num;
  winner_elo_surface : num;
  loser_elo_surface : num
}.
Arguments match_idx {num} _.
Arguments date {num} _.
Arguments surface {num} _.
Arguments winner_id {num} _.
Arguments loser_id {num} _.
Arguments winner_elo_overall {num} _.
Arguments loser_elo_overall {num} _.
Arguments winner_elo_surface {num} _.
Arguments loser_elo_surface {num} _.

(** The attributes of a [TennisEloSystem] instance. *)
Record TennisEloSystem (num : Type) := {
  initial_rating : num;
  k_factor : num;
  ratings : gmap string (gmap string num);
  match_ratings : list (Snapshot num)
}.
Arguments initial_rating {num} _.
Arguments k_factor {num} _.
Arguments ratings {num} _.
Arguments match_ratings {num} _.

Inductive exn := KeyError (key : string).

Inductive result (A : Type) :=
  | Ok (a : A)
  | Raise (e : exn).
Arguments Ok {A} a.
Arguments Raise {A} e.

(** The order [sort_values('date')] sorts by. *)
Definition date_le (a b : MatchRecord) : Prop := (m_date a ≤ m_date b)%Z.

#[export] Instance date_le_dec a b : Decision (date_le a b).
Proof. unfold date_le. apply _. Defined.

#[export] Instance date_le_trans : Transitive date_le.
Proof. unfold date_le. intros a b c. lia. Qed.

#[export] Instance date_le_total : Total date_le.
Proof. unfold date_le. intros a b. lia. Qed.

(** Strictly earlier. *)
Definition date_lt (a b : MatchRecord) : Prop := (m_date a < m_date b)%Z.

(** [matches_df.sort_values('date')] is the library's sort with its default
    algorithm, which pandas documents as not stable.  It is taken by its
    contract: the result holds the same rows, ordered by date.  How rows of
    one date are arranged is left to the instance. *)
Class DateSort := {
  sort_values : list MatchRecord → list MatchRecord;
  sort_values_perm : ∀ df, sort_values df ≡ₚ df;
  sort_values_sorted : ∀ df, StronglySorted date_le (sort_values df)
}.

(** One such sort, for running examples. *)
Definition merge_DateSort : DateSort := {|
  sort_values := merge_sort date_le;
  sort_values_perm := merge_sort_Permutation date_le;
  sort_values_sorted := StronglySorted_merge_sort date_le
|}.

(** ** The engine *)

Section Engine.
Context {num : Type} `{!Numeric num}.

#[local] Abbreviation engine := (TennisEloSystem num).

(** A method body: it may mutate [self] and may raise; what was mutated
    before the exception stays mutated. *)
Definition M (A : Type) : Type := engine → result A * engine.

Definition ret {A} (a : A) : M A := λ self, (Ok a, self).

Definition bind {A B} (c : M A) (k : A → M B) : M B :=
  λ self,
    match c self with
    | (Ok a, self') => k a self'
    | (Raise e, self') => (Raise e, self')
    end.

Definition raise {A} (e : exn) : M A := λ self, (Raise e, self).

Notation "x <- c ;; k" := (bind c (λ x, k))
  (at level 100, c at next level, right associativity).
Notation "c ;;; k" := (bind c (λ _, k))
  (at level 100, right associativity).

Definition set_ratings (r : gmap string (gmap string num)) (self : engine) : engine :=
  {| initial_rating := initial_rating self;
     k_factor := k_factor self;
     ratings := r;
     match_ratings := match_ratings self |}.

Definition set_match_ratings (l : list (Snapshot num)) (self : engine) : engine :=
  {| initial_rating := initial_rating self;
     k_factor := k_factor self;
     ratings := ratings self;
     match_ratings := l |}.

(** The [lambda] given to [defaultdict] (lines 16-23). *)
Definition default_factory (initial_rating : num) : gmap string num :=
  <["overall" := initial_rating]>
  (<["Hard" := initial_rating]>
  (<["Clay" := initial_rating]>
  (<["Grass" := initial_rating]>
  (<["Carpet" := initial_rating]>
  (<["matches_played" := of_Z 0]> ∅))))).

(** [__init__] (lines 11-26). *)
Definition __init__ (initial_rating k_factor : num) : engine :=
  {| initial_rating := initial_rating;
     k_factor := k_factor;
     ratings := ∅;
     match_ratings := [] |}.

(** [self.ratings[player_id]]: a missing key is inserted with a fresh
    default dictionary, which is the value returned. *)
Definition ratings_getitem (player_id : string) : M (gmap string num) :=
  λ self,
    match ratings self !! player_id with
    | Some d => (Ok d, self)
    | None =>
        let d := default_factory (initial_rating self) in
        (Ok d, set_ratings (<[player_id := d]> (ratings self)) self)
    end.

(** [d[key]] on a plain [dict]. *)
Definition dict_getitem (d : gmap string num) (key : string) : M num :=
  match d !! key with
  | Some v => ret v
  | None => raise (KeyError key)
  end.

(** [self.ratings[player_id][key]]. *)
Definition rating_get (player_id key : string) : M num :=
  d <- ratings_getitem player_id ;;
  dict_getitem d key.

(** [self.ratings[player_id][key] = v] where [d] is the dictionary that
    [self.ratings[player_id]] returned: the assignment goes to that same
    object, which the store holds under [player_id]. *)
Definition dict_setitem (player_id : string) (d : gmap string num)
    (key : string) (v : num) : M unit :=
  λ self, (Ok (), set_ratings (<[player_id := <[key := v]> d]> (ratings self)) self).

(** [self.ratings[player_id][key] += x]. *)
Definition rating_iadd (player_id key : string) (x : num) : M unit :=
  d <- ratings_getitem player_id ;;
  v <- dict_getitem d key ;;
  dict_setitem player_id d key (v + x)%py.

(** [self.ratings[player_id][key] -= x]. *)
Definition rating_isub (player_id key : string) (x : num) : M unit :=
  d <- ratings_getitem player_id ;;
  v <- dict_getitem d key ;;
  dict_setitem player_id d key (v - x)%py.

(** [self.match_ratings.append(s)]. *)
Definition match_ratings_append (s : Snapshot num) : M unit :=
  λ self, (Ok (), set_match_ratings (match_ratings self ++ [s]) self).

Definition get_k_factor : M num := λ self, (Ok (k_factor self), self).

(** [expected_probability] (lines 28-29). *)
Definition expected_probability (rating_a rating_b : num) : num :=
  (of_Z 1 / (of_Z 1 + of_Z 10 ** ((rating_b - rating_a) / of_Z 400)))%py.

(** [update_ratings] (lines 31-67). *)
Definition update_ratings (winner_id loser_id surface : string) (date : Z)
    (match_idx : nat) : M unit :=
  winner_overall <- rating_get winner_id "overall" ;;
  loser_overall <- rating_get loser_id "overall" ;;
  winner_surface <- rating_get winner_id surface ;;
  loser_surface <- rating_get loser_id surface ;;
  match_ratings_append
    {| match_idx := match_idx;
       date := date;
       surface := surface;
       winner_id := winner_id;
       loser_id := loser_id;
       winner_elo_overall := winner_overall;
       loser_elo_overall := loser_overall;
       winner_elo_surface := winner_surface;
       loser_elo_surface := loser_surface |} ;;;
  let expected_overall := expected_probability winner_overall loser_overall in
  k <- get_k_factor ;;
  let change_overall := (k * (of_Z 1 - expected_overall))%py in
  rating_iadd winner_id "overall" change_overall ;;;
  rating_isub loser_id "overall" change_overall ;;;
  let expected_surface := expected_probability winner_surface loser_surface in
  k <- get_k_factor ;;
  let change_surface := (k * (of_Z 1 - expected_surface))%py in
  rating_iadd winner_id surface change_surface ;;;
  rating_isub loser_id surface change_surface ;;;
  rating_iadd winner_id "matches_played" (of_Z 1) ;;;
  rating_iadd loser_id "matches_played" (of_Z 1).

(** The local counters of [process_matches] (lines 77-78). *)
Record counters := { processed : nat; skipped : nat }.

(** One iteration of the [for] loop (lines 88-106); the progress report
    of lines 82-86 only prints. *)
Definition loop_body (c : counters) (match_ : MatchRecord) : M counters :=
  let winner_id := m_winner_id match_ in
  let p1_id := p1_id match_ in
  let p2_id := p2_id match_ in
  let surface := m_surface match_ in
  let date := m_date match_ in
  if decide (winner_id = p1_id) then
    update_ratings winner_id p2_id surface date (processed c) ;;;
    ret {| processed := processed c + 1; skipped := skipped c |}
  else if decide (winner_id = p2_id) then
    update_ratings winner_id p1_id surface date (processed c) ;;;
    ret {| processed := processed c + 1; skipped := skipped c |}
  else
    ret {| processed := processed c; skipped := skipped c + 1 |}.

(** The [for] loop over the rows, in the order of the list. *)
Fixpoint for_rows (rows : list MatchRecord) (c : counters) : M counters :=
  match rows with
  | [] => ret c
  | match_ :: rows' => c' <- loop_body c match_ ;; for_rows rows' c'
  end.

(** [process_matches] up to the end of the loop (lines 69-106): the rows
    are sorted by date, then visited in that order. *)
Definition process_matches_loop {DS : DateSort} (matches_df : list MatchRecord) : M counters :=
  let matches_df := sort_values matches_df in
  for_rows matches_df {| processed := 0; skipped := 0 |}.

(** [process_matches] (lines 69-115) returns [processed].  Lines 108-113
    print the report, [skipped] included; the rate they print divides by the
    elapsed wall-clock time, which is taken to be positive. *)
Definition process_matches {DS : DateSort} (matches_df : list MatchRecord) : M nat :=
  c <- process_matches_loop matches_df ;;
  ret (processed c).

End Engine.

(** ** Reading the store without touching it *)

Section Observation.
Context {num : Type} `{!Numeric num}.

#[local] Abbreviation engine := (TennisEloSystem num).

(** The keys of every dictionary the default factory builds. *)
Definition entry_keys : gset string :=
  {[ "overall"; "Hard"; "Clay"; "Grass"; "Carpet"; "matches_played" ]}.

(** The surfaces among them. *)
Definition surfaces : gset string := {[ "Hard"; "Clay"; "Grass"; "Carpet" ]}.

(** The dictionary that [self.ratings[p]] evaluates to. *)
Definition entry_of (self : engine) (p : string) : gmap string num :=
  default (default_factory (initial_rating self)) (ratings self !! p).

(** The value that [self.ratings[p][key]] evaluates to, if any. *)
Definition rating (self : engine) (p key : string) : option num :=
  entry_of self p !! key.

(** The store after [p] has been referenced. *)
Definition materialize (p : string) (self : engine) : engine :=
  set_ratings (<[p := entry_of self p]> (ratings self)) self.

(** The store after the value under [key] of [p] went through [f]. *)
Definition adjust_rating (p key : string) (f : num → num) (self : engine) : engine :=
  set_ratings (<[p := alter f key (entry_of self p)]> (ratings self)) self.

(** Every stored dictionary has exactly the six keys. *)
Definition wf_engine (self : engine) : Prop :=
  map_Forall (λ _ d, dom d = entry_keys) (ratings self).

(** The snapshot [update_ratings] builds from the four values it read. *)
Definition snapshot_of (winner_id loser_id surface : string) (date : Z)
    (match_idx : nat) (wo lo ws ls : num) : Snapshot num :=
  {| match_idx := match_idx;
     date := date;
     surface := surface;
     winner_id := winner_id;
     loser_id := loser_id;
     winner_elo_overall := wo;
     loser_elo_overall := lo;
     winner_elo_surface := ws;
     loser_elo_surface := ls |}.

(** [K * (1 - E)] for the pre-match ratings [rw] and [rl] of one
    dimension (lines 52-53 and 59-60). *)
Definition change (self : engine) (rw rl : num) : num :=
  (k_factor self * (of_Z 1 - expected_probability rw rl))%py.

(** The engine after a call of [update_ratings] that read [wo], [lo],
    [ws] and [ls]: the statements of lines 33-67, innermost first. *)
Definition update_ratings_post (winner_id loser_id surface : string) (date : Z)
    (match_idx : nat) (wo lo ws ls : num) (self : engine) : engine :=
  let co := change self wo lo in
  let cs := change self ws ls in
  adjust_rating loser_id "matches_played" (λ v, v + of_Z 1)%py
  (adjust_rating winner_id "matches_played" (λ v, v + of_Z 1)%py
  (adjust_rating loser_id surface (λ v, v - cs)%py
  (adjust_rating winner_id surface (λ v, v + cs)%py
  (adjust_rating loser_id "overall" (λ v, v - co)%py
  (adjust_rating winner_id "overall" (λ v, v + co)%py
  (set_match_ratings
     (match_ratings self ++
        [snapshot_of winner_id loser_id surface date match_idx wo lo ws ls])
  (materialize loser_id (materialize winner_id self)))))))).

(** Lines 96-102: the other player, when the winner is one of the two. *)
Definition loser_of (match_ : MatchRecord) : option string :=
  if decide (m_winner_id match_ = p1_id match_) then Some (p2_id match_)
  else if decide (m_winner_id match_ = p2_id match_) then Some (p1_id match_)
  else None.

(** The counters after a processed and after a skipped row. *)
Definition count_processed (c : counters) : counters :=
  {| processed := processed c + 1; skipped := skipped c |}.

Definition count_skipped (c : counters) : counters :=
  {| processed := processed c; skipped := skipped c + 1 |}.

(** The keyword defaults of [__init__]. *)
Definition default_initial_rating : num := of_Z 1500.
Definition default_k_factor : num := of_Z 32.

(** The outcome of a run in which one more row was skipped. *)
Definition after_skip (r : result counters * engine) : result counters * engine :=
  match r with
  | (Ok c, self) => (Ok (count_skipped c), self)
  | (Raise e, self) => (Raise e, self)
  end.

(** [f] applied to a reading when [P] holds. *)
Definition when (P : Prop) `{!Decision P} (f : num → num) (o : option num) : option num :=
  if decide P then f <$> o else o.

(** The counters at the start of [process_matches]. *)
Definition zero_counters : counters := {| processed := 0; skipped := 0 |}.

(** The rows of a batch that are valid matches. *)
Definition valid_rows (rows : list MatchRecord) : list MatchRecord :=
  filter (λ r, is_Some (loser_of r)) rows.

End Observation.

(** ** Engines over the real numbers, and rows for the scenarios *)

(** [TennisEloSystem(initial_rating=1500, k_factor=32)] (line 180). *)
Definition new_engine : TennisEloSystem R :=
  __init__ default_initial_rating default_k_factor.

(** A beats B on a hard court. *)
Definition match_AB : MatchRecord :=
  {| m_date := 1; m_surface := "Hard"; p1_id := "A"; p2_id := "B"; m_winner_id := "A" |}.

(** The same match with the players listed the other way round. *)
Definition match_BA : MatchRecord :=
  {| m_date := 1; m_surface := "Hard"; p1_id := "B"; p2_id := "A"; m_winner_id := "A" |}.

(** The match of A and B, had it been played on clay. *)
Definition match_AB_clay : MatchRecord :=
  {| m_date := 1; m_surface := "Clay"; p1_id := "A"; p2_id := "B"; m_winner_id := "A" |}.

(** A match between two other players. *)
Definition match_CD : MatchRecord :=
  {| m_date := 1; m_surface := "Grass"; p1_id := "C"; p2_id := "D"; m_winner_id := "D" |}.

(** A later match, for batches presented out of order. *)
Definition match_late : MatchRecord :=
  {| m_date := 2; m_surface := "Clay"; p1_id := "A"; p2_id := "B"; m_winner_id := "B" |}.

(** A row whose winner is neither player. *)
Definition match_stranger : MatchRecord :=
  {| m_date := 1; m_surface := "Hard"; p1_id := "A"; p2_id := "B"; m_winner_id := "C" |}.

(** A row whose surface column holds the name of another key of the
    players' dictionaries. *)
Definition match_overall : MatchRecord :=
  {| m_date := 1; m_surface := "overall"; p1_id := "A"; p2_id := "B"; m_winner_id := "A" |}.

(** A row whose surface is no key at all. *)
Definition match_indoor : MatchRecord :=
  {| m_date := 1; m_surface := "Indoor"; p1_id := "A"; p2_id := "B"; m_winner_id := "A" |}.

(** ** The rating table *)

(** One dictionary of [ratings_data] in [get_ratings_df] (lines 121-129). *)
Record RatingRow (num : Type) := {
  player_id : string;
  elo_overall : num;
  elo_hard : num;
  elo_clay : num;
  elo_grass : num;
  elo_carpet : num;
  matches_played : num
}.
Arguments player_id {num} _.
Arguments elo_overall {num} _.
Arguments elo_hard {num} _.
Arguments elo_clay {num} _.
Arguments elo_grass {num} _.
Arguments elo_carpet {num} _.
Arguments matches_played {num} _.

Section Tables.
Context {num : Type} `{!Numeric num}.

#[local] Abbreviation engine := (TennisEloSystem num).

Notation "x <- c ;; k" := (bind c (λ x, k))
  (at level 100, c at next level, right associativity).

(** The body of the loop of [get_ratings_df]: six lookups in the plain
    dictionary of one player. *)
Definition rating_row (player_id : string) (ratings : gmap string num) :
    M (RatingRow num) :=
  o <- dict_getitem ratings "overall" ;;
  h <- dict_getitem ratings "Hard" ;;
  c <- dict_getitem ratings "Clay" ;;
  g <- dict_getitem ratings "Grass" ;;
  t <- dict_getitem ratings "Carpet" ;;
  n <- dict_getitem ratings "matches_played" ;;
  ret {| player_id := player_id;
         elo_overall := o;
         elo_hard := h;
         elo_clay := c;
         elo_grass := g;
         elo_carpet := t;
         matches_played := n |}.

(** The loop over the items, one appended row each. *)
Fixpoint rating_rows (items : list (string * gmap string num)) :
    M (list (RatingRow num)) :=
  match items with
  | [] => ret []
  | (player_id, ratings) :: items' =>
      row <- rating_row player_id ratings ;;
      rows <- rating_rows items' ;;
      ret (row :: rows)
  end.

(** [get_ratings_df] (lines 117-130).  [self.ratings.items()] goes through
    the players in the order they were first referenced; the finite map does
    not record that order, so the rows come in the order of [map_to_list]
    and only what holds for every order is stated about them. *)
Definition get_ratings_df : M (list (RatingRow num)) :=
  λ self, rating_rows (map_to_list (ratings self)) self.

(** The row holds what the dictionary of the player holds. *)
Definition row_reads (item : string * gmap string num) (row : RatingRow num) : Prop :=
  player_id row = item.1 ∧
  item.2 !! "overall" = Some (elo_overall row) ∧
  item.2 !! "Hard" = Some (elo_hard row) ∧
  item.2 !! "Clay" = Some (elo_clay row) ∧
  item.2 !! "Grass" = Some (elo_grass row) ∧
  item.2 !! "Carpet" = Some (elo_carpet row) ∧
  item.2 !! "matches_played" = Some (matches_played row).

End Tables.

(** ** Counting over a batch *)

(** The players listed in the valid rows. *)
Definition participants (rows : list MatchRecord) : gset string :=
  list_to_set (p1_id <$> valid_rows rows) ∪ list_to_set (p2_id <$> valid_rows rows).

(** How many times [p] is listed in the valid rows, as first or as second
    player. *)
Definition appearances (p : string) (rows : list MatchRecord) : nat :=
  length (filter (λ r, p1_id r = p) (valid_rows rows)) +
  length (filter (λ r, p2_id r = p) (valid_rows rows)).

(** Two rows that list the same players and the same winner. *)
Definition same_match (a b : MatchRecord) : Prop :=
  p1_id a = p1_id b ∧ p2_id a = p2_id b ∧ m_winner_id a = m_winner_id b.

(** Two rows without a player in common. *)
Definition no_common_player (a b : MatchRecord) : Prop :=
  p1_id a ≠ p1_id b ∧ p1_id a ≠ p2_id b ∧ p2_id a ≠ p1_id b ∧ p2_id a ≠ p2_id b.

(** What the loop asks of a row to get through it: a valid match is played
    on one of the four surfaces. *)
Definition row_ok (r : MatchRecord) : Prop :=
  is_Some (loser_of r) → m_surface r ∈ surfaces.

(** The sum over the tracked players of the value under [key]. *)
Definition total_of (key : string) (m : gmap string (gmap string R)) : R :=
  map_fold (λ _ d acc, (default 0 (d !! key) + acc)%R) 0%R m.

Definition total_rating (key : string) (self : TennisEloSystem R) : R :=
  total_of key (ratings self).

(** How far that sum is from one initial rating per tracked player. *)
Definition excess_rating (key : string) (self : TennisEloSystem R) : R :=
  (total_rating key self - initial_rating self * INR (size (ratings self)))%R.

(** ** Surface labels upstream *)

Section Upstream.
(** [str.strip] and [str.lower], which belong to the language. *)
Variables (str_strip str_lower : string → string).

(** The dictionary of [standardize_surface] (lines 141-151 of
    [src/clean/data_processor.py]). *)
Definition surface_mapping : gmap string string :=
  <["hard" := "Hard"]>
  (<["clay" := "Clay"]>
  (<["grass" := "Grass"]>
  (<["carpet" := "Carpet"]>
  (<["acrylic" := "Hard"]>
  (<["decoturf" := "Hard"]>
  (<["plexicushion" := "Hard"]>
  (<["rebound ace" := "Hard"]>
  (<["greenset" := "Hard"]> ∅)))))))).

(** [standardize_surface] (lines 134-153).  The argument is [None] when
    [pd.isna] holds of the cell and otherwise the text [str(surface)]. *)
Definition standardize_surface (surface : option string) : option string :=
  match surface with
  | None => None
  | Some surface =>
      let surface := str_lower (str_strip surface) in
      Some (default "Hard" (surface_mapping !! surface))
  end.

(** The dictionary of [standardize_round] (lines 162-178). *)
Definition round_mapping : gmap string string :=
  <["1st Round" := "R1"]>
  (<["2nd Round" := "R2"]>
  (<["3rd Round" := "R3"]>
  (<["4th Round" := "R4"]>
  (<["Round of 128" := "R1"]>
  (<["Round of 64" := "R2"]>
  (<["Round of 32" := "R3"]>
  (<["Round of 16" := "R4"]>
  (<["Quarterfinals" := "QF"]>
  (<["Quarter-finals" := "QF"]>
  (<["Semifinals" := "SF"]>
  (<["Semi-finals" := "SF"]>
  (<["The Final" := "F"]>
  (<["Final" := "F"]>
  (<["Finals" := "F"]> ∅)))))))))))))).

(** The codes it maps to. *)
Definition round_codes : list string := ["R1"; "R2"; "R3"; "R4"; "QF"; "SF"; "F"].

(** [standardize_round] (lines 155-180), with the argument as for
    [standardize_surface]. *)
Definition standardize_round (round_str : option string) : option string :=
  match round_str with
  | None => None
  | Some round_str =>
      let round_str := str_strip round_str in
      Some (default round_str (round_mapping !! round_str))
  end.

End Upstream.

(** [str.lower] and [str.strip] on text made of ASCII characters. *)
Definition ascii_lower_char (a : Ascii.ascii) : Ascii.ascii :=
  let n := Ascii.N_of_ascii a in
  if ((65 <=? n) && (n <=? 90))%N then Ascii.ascii_of_N (n + 32) else a.

Fixpoint ascii_lower (s : string) : string :=
  match s with
  | EmptyString => EmptyString
  | String a s' => String (ascii_lower_char a) (ascii_lower s')
  end.

Definition ascii_is_space (a : Ascii.ascii) : bool :=
  let n := Ascii.N_of_ascii a in
  (((9 <=? n) && (n <=? 13)) || ((28 <=? n) && (n <=? 32)))%N.

Fixpoint ascii_lstrip (s : string) : string :=
  match s with
  | EmptyString => EmptyString
  | String a s' => if ascii_is_space a then ascii_lstrip s' else s
  end.

Definition ascii_strip (s : string) : string :=
  String.rev (ascii_lstrip (String.rev (ascii_lstrip s))).

Section EngineFacts.
Context {num : Type} `{!Numeric num}.

#[local] Abbreviation engine := (TennisEloSystem num).
Implicit Types (self : engine) (p q w l key k s : string) (d : gmap string num).

Lemma dom_default_factory (i : num) : dom (default_factory i) = entry_keys.
Proof. unfold default_factory, entry_keys. rewrite !dom_insert_L, dom_empty_L. set_solver. Qed.

Lemma wf_init (i kf : num) : wf_engine (__init__ i kf).
Proof. unfold wf_engine, __init__; simpl. apply map_Forall_empty. Qed.

Lemma wf_entry_of self p : wf_engine self → dom (entry_of self p) = entry_keys.
Proof.
  intros Hwf. unfold entry_of.
  destruct (ratings self !! p) as [d|] eqn:E; simpl.
  - exact (Hwf p d E).
  - apply dom_default_factory.
Qed.

Lemma rating_is_Some self p key :
  wf_engine self → key ∈ entry_keys → is_Some (rating self p key).
Proof.
  intros Hwf Hk. unfold rating. apply elem_of_dom.
  by rewrite wf_entry_of.
Qed.

Lemma rating_None self p key :
  wf_engine self → key ∉ entry_keys → rating self p key = None.
Proof.
  intros Hwf Hk. unfold rating. apply not_elem_of_dom.
  by rewrite wf_entry_of.
Qed.

Lemma rating_unseen self p key :
  ratings self !! p = None →
  rating self p key = default_factory (initial_rating self) !! key.
Proof. intros E. unfold rating, entry_of. by rewrite E. Qed.

(** *** The primitive operations in closed form *)

Lemma ratings_getitem_eq self p :
  ratings_getitem p self = (Ok (entry_of self p), materialize p self).
Proof.
  unfold ratings_getitem, materialize, entry_of, set_ratings.
  destruct (ratings self !! p) as [d|] eqn:E; simpl; [|done].
  rewrite insert_id by done. by destruct self.
Qed.

Lemma rating_get_Some self p key v :
  rating self p key = Some v →
  rating_get p key self = (Ok v, materialize p self).
Proof.
  intros E. unfold rating_get, bind. rewrite ratings_getitem_eq.
  unfold dict_getitem. unfold rating in E. by rewrite E.
Qed.

Lemma rating_get_None self p key :
  rating self p key = None →
  rating_get p key self = (Raise (KeyError key), materialize p self).
Proof.
  intros E. unfold rating_get, bind. rewrite ratings_getitem_eq.
  unfold dict_getitem. unfold rating in E. by rewrite E.
Qed.

Lemma alter_Some_insert d key (f : num → num) v :
  d !! key = Some v → <[key := f v]> d = alter f key d.
Proof.
  intros E. apply map_eq. intros j. rewrite lookup_insert, lookup_alter.
  case_decide; subst; by rewrite ?E.
Qed.

Lemma rating_iadd_Some self p key x v :
  rating self p key = Some v →
  rating_iadd p key x self = (Ok (), adjust_rating p key (λ v, v + x)%py self).
Proof.
  intros E. unfold rating_iadd, bind. rewrite ratings_getitem_eq.
  unfold dict_getitem. unfold rating in E. rewrite E. simpl.
  unfold dict_setitem, adjust_rating, materialize, set_ratings. simpl.
  rewrite insert_insert_eq.
  by rewrite (alter_Some_insert _ _ (λ v, v + x)%py _ E).
Qed.

Lemma rating_isub_Some self p key x v :
  rating self p key = Some v →
  rating_isub p key x self = (Ok (), adjust_rating p key (λ v, v - x)%py self).
Proof.
  intros E. unfold rating_isub, bind. rewrite ratings_getitem_eq.
  unfold dict_getitem. unfold rating in E. rewrite E. simpl.
  unfold dict_setitem, adjust_rating, materialize, set_ratings. simpl.
  rewrite insert_insert_eq.
  by rewrite (alter_Some_insert _ _ (λ v, v - x)%py _ E).
Qed.

(** *** What the state transformers do to observations *)

Lemma entry_of_materialize self p q : entry_of (materialize p self) q = entry_of self q.
Proof.
  unfold entry_of at 1. unfold materialize; simpl.
  rewrite lookup_insert. case_decide; subst; simpl; [done|].
  by unfold entry_of.
Qed.

Lemma rating_materialize self p q key : rating (materialize p self) q key = rating self q key.
Proof. unfold rating. by rewrite entry_of_materialize. Qed.

Lemma entry_of_adjust self p key f q :
  entry_of (adjust_rating p key f self) q =
    if decide (p = q) then alter f key (entry_of self q) else entry_of self q.
Proof.
  unfold entry_of at 1. unfold adjust_rating; simpl.
  rewrite lookup_insert. case_decide; subst; simpl; [done|].
  by unfold entry_of.
Qed.

Lemma rating_adjust self p key f q k :
  rating (adjust_rating p key f self) q k =
    if decide (p = q ∧ key = k) then f <$> rating self q k else rating self q k.
Proof.
  unfold rating. rewrite entry_of_adjust.
  destruct (decide (p = q)) as [->|Hpq].
  - rewrite lookup_alter.
    destruct (decide (key = k)) as [->|Hk].
    + by rewrite decide_True.
    + rewrite decide_False; [done|]. intros [_ ?]; done.
  - rewrite decide_False; [done|]. intros [? _]; done.
Qed.

Lemma rating_set_match_ratings self log p key :
  rating (set_match_ratings log self) p key = rating self p key.
Proof. done. Qed.

Lemma wf_materialize self p : wf_engine self → wf_engine (materialize p self).
Proof.
  intros Hwf. unfold wf_engine, materialize; simpl.
  apply map_Forall_insert_2; [|done]. by apply wf_entry_of.
Qed.

Lemma wf_adjust self p key f : wf_engine self → wf_engine (adjust_rating p key f self).
Proof.
  intros Hwf. unfold wf_engine, adjust_rating; simpl.
  apply map_Forall_insert_2; [|done].
  rewrite dom_alter_L. by apply wf_entry_of.
Qed.

Lemma wf_set_match_ratings self log : wf_engine self → wf_engine (set_match_ratings log self).
Proof. done. Qed.

(** *** Sequencing *)

Lemma bind_Ok {A B} (c : M A) (f : A → M B) self a self' :
  c self = (Ok a, self') → bind c f self = f a self'.
Proof. intros E. unfold bind. by rewrite E. Qed.

Lemma bind_Raise {A B} (c : M A) (f : A → M B) self e self' :
  c self = (Raise e, self') → bind c f self = (Raise e, self').
Proof. intros E. unfold bind. by rewrite E. Qed.

Lemma materialize_seen self p : is_Some (ratings self !! p) → materialize p self = self.
Proof.
  intros [d E]. unfold materialize, entry_of, set_ratings. rewrite E; simpl.
  rewrite insert_id by done. by destruct self.
Qed.

Lemma materialize_twice self p q :
  materialize q (materialize p (materialize q (materialize p self))) =
  materialize q (materialize p self).
Proof.
  rewrite (materialize_seen (materialize q (materialize p self)) p).
  - apply materialize_seen. unfold materialize; simpl.
    rewrite lookup_insert_eq. by eexists.
  - unfold materialize; simpl.
    destruct (decide (q = p)) as [->|Hne].
    + rewrite lookup_insert_eq. by eexists.
    + rewrite lookup_insert_ne, lookup_insert_eq by done. by eexists.
Qed.

Lemma rating_iadd_wf self p key x :
  wf_engine self → key ∈ entry_keys →
  rating_iadd p key x self = (Ok (), adjust_rating p key (λ v, v + x)%py self).
Proof.
  intros Hwf Hk. destruct (rating_is_Some self p key Hwf Hk) as [v Hv].
  by eapply rating_iadd_Some.
Qed.

Lemma rating_isub_wf self p key x :
  wf_engine self → key ∈ entry_keys →
  rating_isub p key x self = (Ok (), adjust_rating p key (λ v, v - x)%py self).
Proof.
  intros Hwf Hk. destruct (rating_is_Some self p key Hwf Hk) as [v Hv].
  by eapply rating_isub_Some.
Qed.

Lemma overall_key : "overall" ∈ entry_keys.
Proof. unfold entry_keys. rewrite !elem_of_union, !elem_of_singleton. tauto. Qed.

Lemma matches_played_key : "matches_played" ∈ entry_keys.
Proof. unfold entry_keys. rewrite !elem_of_union, !elem_of_singleton. tauto. Qed.

Lemma surfaces_keys s : s ∈ surfaces → s ∈ entry_keys.
Proof.
  unfold surfaces, entry_keys. rewrite !elem_of_union, !elem_of_singleton. tauto.
Qed.

(** *** [update_ratings] in closed form *)

Lemma update_ratings_reads self w l s (dt : Z) (i : nat) wo lo ws ls :
  wf_engine self →
  rating self w "overall" = Some wo →
  rating self l "overall" = Some lo →
  rating self w s = Some ws →
  rating self l s = Some ls →
  update_ratings w l s dt i self =
    (Ok (), update_ratings_post w l s dt i wo lo ws ls self).
Proof.
  intros Hwf Hwo Hlo Hws Hls.
  assert (Hs : s ∈ entry_keys).
  { destruct (decide (s ∈ entry_keys)) as [|Hn]; [done|].
    rewrite (rating_None self w s Hwf Hn) in Hws. discriminate. }
  pose proof overall_key as Hov. pose proof matches_played_key as Hmp.
  unfold update_ratings.
  rewrite (bind_Ok _ _ _ _ _ (rating_get_Some _ _ _ _ Hwo)).
  erewrite bind_Ok; [|apply rating_get_Some; by rewrite rating_materialize].
  erewrite bind_Ok; [|apply rating_get_Some; by rewrite !rating_materialize].
  erewrite bind_Ok; [|apply rating_get_Some; by rewrite !rating_materialize].
  rewrite materialize_twice.
  erewrite bind_Ok; [|reflexivity].
  erewrite bind_Ok; [|reflexivity].
  assert (Hwf1 : wf_engine (materialize l (materialize w self)))
    by (by do 2 apply wf_materialize).
  erewrite bind_Ok; [|by apply rating_iadd_wf].
  erewrite bind_Ok; [|apply rating_isub_wf; [by apply wf_adjust|done]].
  erewrite bind_Ok; [|reflexivity].
  erewrite bind_Ok; [|apply rating_iadd_wf; [by do 2 apply wf_adjust|done]].
  erewrite bind_Ok; [|apply rating_isub_wf; [by do 3 apply wf_adjust|done]].
  erewrite bind_Ok; [|apply rating_iadd_wf; [by do 4 apply wf_adjust|done]].
  rewrite rating_iadd_wf; [done|by do 5 apply wf_adjust|done].
Qed.

End EngineFacts.

(** ** The loop *)

Section LoopFacts.
Context {num : Type} `{!Numeric num}.

#[local] Abbreviation engine := (TennisEloSystem num).
Implicit Types (self : engine) (p q w l key k s : string) (c : counters)
  (m : MatchRecord) (rows pre post df : list MatchRecord).

Lemma update_ratings_raises self w l s (dt : Z) (i : nat) :
  wf_engine self → s ∉ entry_keys →
  update_ratings w l s dt i self =
    (Raise (KeyError s), materialize l (materialize w self)).
Proof.
  intros Hwf Hs.
  destruct (rating_is_Some self w "overall" Hwf overall_key) as [wo Hwo].
  destruct (rating_is_Some self l "overall" Hwf overall_key) as [lo Hlo].
  unfold update_ratings.
  rewrite (bind_Ok _ _ _ _ _ (rating_get_Some _ _ _ _ Hwo)).
  erewrite bind_Ok; [|apply rating_get_Some; by rewrite rating_materialize].
  erewrite bind_Raise; [reflexivity|].
  rewrite rating_get_None.
  - f_equal. apply materialize_seen. unfold materialize; simpl.
    destruct (decide (l = w)) as [->|Hne].
    + rewrite lookup_insert_eq. by eexists.
    + rewrite lookup_insert_ne, lookup_insert_eq by done. by eexists.
  - rewrite !rating_materialize. by apply rating_None.
Qed.

Lemma update_ratings_succeeds self w l s (dt : Z) (i : nat) :
  wf_engine self → s ∈ entry_keys →
  ∃ wo lo ws ls,
    rating self w "overall" = Some wo ∧ rating self l "overall" = Some lo ∧
    rating self w s = Some ws ∧ rating self l s = Some ls ∧
    update_ratings w l s dt i self =
      (Ok (), update_ratings_post w l s dt i wo lo ws ls self).
Proof.
  intros Hwf Hs.
  destruct (rating_is_Some self w "overall" Hwf overall_key) as [wo Hwo].
  destruct (rating_is_Some self l "overall" Hwf overall_key) as [lo Hlo].
  destruct (rating_is_Some self w s Hwf Hs) as [ws Hws].
  destruct (rating_is_Some self l s Hwf Hs) as [ls Hls].
  exists wo, lo, ws, ls. repeat split; try done.
  by apply update_ratings_reads.
Qed.

Lemma wf_update_ratings_post self w l s (dt : Z) (i : nat) (wo lo ws ls : num) :
  wf_engine self → wf_engine (update_ratings_post w l s dt i wo lo ws ls self).
Proof.
  intros Hwf. unfold update_ratings_post.
  do 6 apply wf_adjust. apply wf_set_match_ratings. by do 2 apply wf_materialize.
Qed.

Lemma wf_update_ratings self w l s (dt : Z) (i : nat) :
  wf_engine self → wf_engine (update_ratings w l s dt i self).2.
Proof.
  intros Hwf. destruct (decide (s ∈ entry_keys)) as [Hs|Hs].
  - destruct (update_ratings_succeeds self w l s dt i Hwf Hs)
      as (wo & lo & ws & ls & _ & _ & _ & _ & ->); cbn [snd].
    by apply wf_update_ratings_post.
  - rewrite update_ratings_raises by done; simpl. by do 2 apply wf_materialize.
Qed.

Lemma loop_body_eq c m :
  loop_body c m =
    match loser_of m with
    | Some l =>
        bind (update_ratings (m_winner_id m) l (m_surface m) (m_date m) (processed c))
          (λ _, ret (count_processed c))
    | None => ret (count_skipped c)
    end.
Proof.
  unfold loop_body, loser_of, count_processed, count_skipped.
  by repeat case_decide.
Qed.

Lemma wf_loop_body self c m : wf_engine self → wf_engine (loop_body c m self).2.
Proof.
  intros Hwf. rewrite loop_body_eq. destruct (loser_of m) as [l|]; [|done].
  pose proof (wf_update_ratings self (m_winner_id m) l (m_surface m) (m_date m)
                (processed c) Hwf) as H.
  unfold bind. by destruct (update_ratings _ _ _ _ _ self) as [[[]|e] self'].
Qed.

Lemma wf_for_rows rows : ∀ self c, wf_engine self → wf_engine (for_rows rows c self).2.
Proof.
  induction rows as [|m rows IH]; intros self c Hwf; simpl; [done|].
  pose proof (wf_loop_body self c m Hwf) as H. unfold bind.
  destruct (loop_body c m self) as [[c'|e] self']; simpl in *; [|done].
  by apply IH.
Qed.

Lemma for_rows_app pre post c self :
  for_rows (pre ++ post) c self = bind (for_rows pre c) (for_rows post) self.
Proof.
  revert c self. induction pre as [|m pre IH]; intros c self; simpl; [done|].
  unfold bind.
  destruct (loop_body c m self) as [[c'|e] self']; [|done].
  rewrite IH. by unfold bind.
Qed.

Lemma match_ratings_update_ratings_post self w l s (dt : Z) (i : nat) (wo lo ws ls : num) :
  match_ratings (update_ratings_post w l s dt i wo lo ws ls self) =
    match_ratings self ++ [snapshot_of w l s dt i wo lo ws ls].
Proof. done. Qed.

Lemma log_prefix_update_ratings self w l s (dt : Z) (i : nat) :
  wf_engine self →
  match_ratings self `prefix_of` match_ratings (update_ratings w l s dt i self).2.
Proof.
  intros Hwf. destruct (decide (s ∈ entry_keys)) as [Hs|Hs].
  - destruct (update_ratings_succeeds self w l s dt i Hwf Hs)
      as (wo & lo & ws & ls & _ & _ & _ & _ & ->); cbn [snd].
    rewrite match_ratings_update_ratings_post. by apply prefix_app_r.
  - by rewrite update_ratings_raises.
Qed.

Lemma log_prefix_loop_body self c m :
  wf_engine self →
  match_ratings self `prefix_of` match_ratings (loop_body c m self).2.
Proof.
  intros Hwf. rewrite loop_body_eq. destruct (loser_of m) as [l|]; [|done].
  pose proof (log_prefix_update_ratings self (m_winner_id m) l (m_surface m)
                (m_date m) (processed c) Hwf) as H.
  unfold bind. by destruct (update_ratings _ _ _ _ _ self) as [[[]|e] self'].
Qed.

Lemma log_prefix_for_rows rows : ∀ self c,
  wf_engine self →
  match_ratings self `prefix_of` match_ratings (for_rows rows c self).2.
Proof.
  induction rows as [|m rows IH]; intros self c Hwf; simpl; [done|].
  pose proof (log_prefix_loop_body self c m Hwf) as H.
  pose proof (wf_loop_body self c m Hwf) as Hwf'.
  unfold bind.
  destruct (loop_body c m self) as [[c'|e] self']; simpl in *; [|done].
  etrans; [exact H|]. by apply IH.
Qed.

Lemma for_rows_after_prefix pre m post c0 c1 self0 self1 :
  for_rows pre c0 self0 = (Ok c1, self1) →
  for_rows (pre ++ m :: post) c0 self0 =
    bind (loop_body c1 m) (for_rows post) self1.
Proof. intros E. rewrite for_rows_app. by rewrite (bind_Ok _ _ _ _ _ E). Qed.

Lemma loop_body_after_skip c m self :
  loop_body (count_skipped c) m self = after_skip (loop_body c m self).
Proof.
  rewrite !loop_body_eq. destruct (loser_of m) as [l|]; [|done].
  unfold bind; simpl.
  by destruct (update_ratings _ _ _ _ _ self) as [[[]|e] self'].
Qed.

Lemma for_rows_after_skip rows : ∀ c self,
  for_rows rows (count_skipped c) self = after_skip (for_rows rows c self).
Proof.
  induction rows as [|m rows IH]; intros c self; simpl; [done|].
  unfold bind. rewrite loop_body_after_skip.
  destruct (loop_body c m self) as [[c'|e] self']; simpl; [|done].
  apply IH.
Qed.

Lemma loop_body_count c m self c' self' :
  loop_body c m self = (Ok c', self') →
  processed c' + skipped c' = processed c + skipped c + 1.
Proof.
  rewrite loop_body_eq. destruct (loser_of m) as [l|].
  - unfold bind. destruct (update_ratings _ _ _ _ _ self) as [[[]|e] self1]; [|done].
    intros [= <- _]. simpl. lia.
  - intros [= <- _]. simpl. lia.
Qed.

Lemma for_rows_count rows : ∀ c self c' self',
  for_rows rows c self = (Ok c', self') →
  processed c' + skipped c' = processed c + skipped c + length rows.
Proof.
  induction rows as [|m rows IH]; intros c self c' self'; simpl.
  - intros [= <- _]. lia.
  - unfold bind. destruct (loop_body c m self) as [[c1|e] self1] eqn:E; [|done].
    intros H. apply IH in H. apply loop_body_count in E. lia.
Qed.

Lemma for_rows_total rows : ∀ c self,
  wf_engine self →
  Forall (λ r, is_Some (loser_of r) → m_surface r ∈ entry_keys) rows →
  ∃ c' self', for_rows rows c self = (Ok c', self').
Proof.
  induction rows as [|m rows IH]; intros c self Hwf Hall; simpl; [by eauto|].
  apply Forall_cons in Hall as [Hm Hall].
  assert (∃ c1 self1, loop_body c m self = (Ok c1, self1) ∧ wf_engine self1)
    as (c1 & self1 & E & Hwf1).
  { pose proof (wf_loop_body self c m Hwf) as Hwf'. revert Hwf'.
    rewrite loop_body_eq. destruct (loser_of m) as [l|] eqn:El; [|by eauto].
    destruct (update_ratings_succeeds self (m_winner_id m) l (m_surface m)
                (m_date m) (processed c) Hwf (Hm (mk_is_Some _ _ eq_refl)))
      as (wo & lo & ws & ls & _ & _ & _ & _ & Hup).
    rewrite (bind_Ok _ _ _ _ _ Hup). by eauto. }
  rewrite (bind_Ok _ _ _ _ _ E). by apply IH.
Qed.

Lemma ratings_materialize_ne self p q :
  p ≠ q → ratings (materialize p self) !! q = ratings self !! q.
Proof. intros Hne. unfold materialize; simpl. by rewrite lookup_insert_ne. Qed.

Lemma ratings_adjust_ne self p key (f : num → num) q :
  p ≠ q → ratings (adjust_rating p key f self) !! q = ratings self !! q.
Proof. intros Hne. unfold adjust_rating; simpl. by rewrite lookup_insert_ne. Qed.

Lemma ratings_set_match_ratings self (log : list (Snapshot num)) :
  ratings (set_match_ratings log self) = ratings self.
Proof. done. Qed.

Lemma dom_ratings_materialize self p :
  dom (ratings (materialize p self)) = {[p]} ∪ dom (ratings self).
Proof. unfold materialize; simpl. by rewrite dom_insert_L. Qed.

Lemma dom_ratings_adjust self p key (f : num → num) :
  dom (ratings (adjust_rating p key f self)) = {[p]} ∪ dom (ratings self).
Proof. unfold adjust_rating; simpl. by rewrite dom_insert_L. Qed.

Lemma rating_update_ratings_post self w l s (dt : Z) (i : nat) (wo lo ws ls : num) p key :
  rating (update_ratings_post w l s dt i wo lo ws ls self) p key =
    when (l = p ∧ "matches_played" = key) (λ v, v + of_Z 1)%py
    (when (w = p ∧ "matches_played" = key) (λ v, v + of_Z 1)%py
    (when (l = p ∧ s = key) (λ v, v - change self ws ls)%py
    (when (w = p ∧ s = key) (λ v, v + change self ws ls)%py
    (when (l = p ∧ "overall" = key) (λ v, v - change self wo lo)%py
    (when (w = p ∧ "overall" = key) (λ v, v + change self wo lo)%py
    (rating self p key)))))).
Proof.
  unfold update_ratings_post, when. rewrite !rating_adjust.
  by rewrite rating_set_match_ratings, !rating_materialize.
Qed.

Lemma surfaces_not_overall s : s ∈ surfaces → s ≠ "overall" ∧ s ≠ "matches_played".
Proof.
  unfold surfaces. rewrite !elem_of_union, !elem_of_singleton.
  intros [[[->| ->]| ->]| ->]; done.
Qed.

Lemma when_True (P : Prop) `{!Decision P} (f : num → num) o : P → when P f o = f <$> o.
Proof. intros HP. unfold when. by rewrite decide_True. Qed.

Lemma when_False (P : Prop) `{!Decision P} (f : num → num) o : ¬ P → when P f o = o.
Proof. intros HP. unfold when. by rewrite decide_False. Qed.

Lemma log_dates_loop_body self c m :
  wf_engine self →
  (is_Some (loser_of m) → m_surface m ∈ entry_keys) →
  date <$> match_ratings (loop_body c m self).2 =
    (date <$> match_ratings self) ++ (m_date <$> valid_rows [m]).
Proof.
  intros Hwf Hs. rewrite loop_body_eq. unfold valid_rows.
  destruct (loser_of m) as [l|] eqn:El.
  - rewrite filter_cons_True, filter_nil by (by rewrite El).
    destruct (update_ratings_succeeds self (m_winner_id m) l (m_surface m)
                (m_date m) (processed c) Hwf (Hs (mk_is_Some _ _ eq_refl)))
      as (wo & lo & ws & ls & _ & _ & _ & _ & Hup).
    rewrite (bind_Ok _ _ _ _ _ Hup). cbn [snd ret].
    rewrite match_ratings_update_ratings_post. by rewrite fmap_app.
  - rewrite filter_cons_False, filter_nil by (rewrite El; by intros [? ?]).
    simpl. by rewrite app_nil_r.
Qed.

Lemma log_dates_for_rows rows : ∀ self c,
  wf_engine self →
  Forall (λ r, is_Some (loser_of r) → m_surface r ∈ entry_keys) rows →
  date <$> match_ratings (for_rows rows c self).2 =
    (date <$> match_ratings self) ++ (m_date <$> valid_rows rows).
Proof.
  induction rows as [|m rows IH]; intros self c Hwf Hall.
  - simpl. by rewrite app_nil_r.
  - apply Forall_cons in Hall as [Hm Hall].
    pose proof (log_dates_loop_body self c m Hwf Hm) as Hlog.
    pose proof (wf_loop_body self c m Hwf) as Hwf'.
    assert (∃ c1 self1, loop_body c m self = (Ok c1, self1)) as (c1 & self1 & E).
    { destruct (for_rows_total [m] c self Hwf) as (c1 & self1 & E).
      - by apply Forall_singleton.
      - simpl in E. unfold bind in E.
        destruct (loop_body c m self) as [[c'|e] self']; [by eauto|done]. }
    rewrite E in Hlog, Hwf'. cbn [snd] in Hlog, Hwf'.
    cbn [for_rows]. rewrite (bind_Ok _ _ _ _ _ E).
    rewrite (IH self1 c1 Hwf' Hall), Hlog, <- app_assoc, <- fmap_app.
    unfold valid_rows. by rewrite <- filter_app.
Qed.

(** *** The order of the visit *)

Lemma sorted_perm_of_strict pre : ∀ rows,
  StronglySorted date_lt pre → rows ≡ₚ pre → StronglySorted date_le rows →
  rows = pre.
Proof.
  induction pre as [|x pre IH]; intros rows Hlt Hperm Hle.
  - by apply Permutation_nil_r in Hperm.
  - apply StronglySorted_inv in Hlt as [Hlt Hx].
    destruct rows as [|y rows]; [by apply Permutation_nil_cons in Hperm|].
    apply StronglySorted_inv in Hle as [Hle Hy].
    assert (Hxy : y = x).
    { assert (Hyin : y ∈ x :: pre) by (rewrite <- Hperm; left).
      assert (Hxin : x ∈ y :: rows) by (rewrite Hperm; left).
      apply elem_of_cons in Hyin as [->|Hyin]; [done|].
      apply elem_of_cons in Hxin as [->|Hxin]; [done|].
      rewrite Forall_forall in Hx, Hy.
      pose proof (Hx y Hyin) as H1. pose proof (Hy x Hxin) as H2.
      unfold date_lt, date_le in *. lia. }
    subst y. f_equal. apply IH; [done| |done].
    by apply (inj (cons x)).
Qed.

Lemma sort_values_strict (S : DateSort) df :
  StronglySorted date_lt df → sort_values df = df.
Proof.
  intros Hlt. apply sorted_perm_of_strict; [done|apply sort_values_perm|].
  apply sort_values_sorted.
Qed.

Lemma strict_pair a b : date_lt b a → StronglySorted date_lt [b; a].
Proof.
  intros Hlt. apply SSorted_cons.
  - apply SSorted_cons; [apply SSorted_nil|apply Forall_nil_2].
  - apply Forall_cons_2; [exact Hlt|apply Forall_nil_2].
Qed.

Lemma sort_values_swap (S : DateSort) a b :
  date_lt b a → sort_values [a; b] = [b; a].
Proof.
  intros Hlt. apply sorted_perm_of_strict.
  - by apply strict_pair.
  - rewrite sort_values_perm. apply Permutation_swap.
  - apply sort_values_sorted.
Qed.

Lemma sort_values_singleton (S : DateSort) m : sort_values [m] = [m].
Proof. apply Permutation_singleton_r, sort_values_perm. Qed.

End LoopFacts.

(** Decides each guard of [rating_update_ratings_post] from the equations
    and disequations at hand. *)
Ltac when_step :=
  match goal with
  | |- context [when ?P ?f ?o] =>
      first [ rewrite (when_False P f o) by (intros [? ?]; congruence)
            | rewrite (when_True P f o) by (split; congruence) ]
  end.

(** ** Properties of the rating engine *)

Section Properties.
Context {num : Type} `{!Numeric num}.

#[local] Abbreviation engine := (TennisEloSystem num).
Implicit Types (self : engine) (p q w l key k s : string) (c : counters)
  (m : MatchRecord) (rows pre post df : list MatchRecord).

(** C1.  Snapshot causality.  Let the loop have run over the rows [pre] and
    reached the engine [self1], and let the next row [m] be a valid match
    whose surface is a key of the players' dictionaries.  Then, however the
    rest of the batch goes, the log holds at the next free position a
    snapshot for [m] whose index is the number of matches processed so far
    and whose four ratings are the values the store gave in [self1], before
    any statement of [update_ratings] for [m] changed a rating. *)
Theorem snapshot_causality pre m post l c0 c1 self0 self1 :
  wf_engine self0 →
  for_rows pre c0 self0 = (Ok c1, self1) →
  loser_of m = Some l →
  m_surface m ∈ entry_keys →
  ∃ snap,
    match_ratings (for_rows (pre ++ m :: post) c0 self0).2
      !! length (match_ratings self1) = Some snap ∧
    match_idx snap = processed c1 ∧
    date snap = m_date m ∧
    surface snap = m_surface m ∧
    winner_id snap = m_winner_id m ∧
    loser_id snap = l ∧
    rating self1 (m_winner_id m) "overall" = Some (winner_elo_overall snap) ∧
    rating self1 l "overall" = Some (loser_elo_overall snap) ∧
    rating self1 (m_winner_id m) (m_surface m) = Some (winner_elo_surface snap) ∧
    rating self1 l (m_surface m) = Some (loser_elo_surface snap).
Proof.
  intros Hwf0 Hpre Hl Hs.
  assert (Hwf1 : wf_engine self1).
  { pose proof (wf_for_rows pre self0 c0 Hwf0) as H. by rewrite Hpre in H. }
  destruct (update_ratings_succeeds self1 (m_winner_id m) l (m_surface m)
              (m_date m) (processed c1) Hwf1 Hs)
    as (wo & lo & ws & ls & Hwo & Hlo & Hws & Hls & Hup).
  exists (snapshot_of (m_winner_id m) l (m_surface m) (m_date m) (processed c1)
            wo lo ws ls).
  split; [|by repeat split].
  rewrite (for_rows_after_prefix _ _ _ _ _ _ _ Hpre).
  erewrite bind_Ok;
    [|rewrite loop_body_eq, Hl; erewrite bind_Ok; [reflexivity|exact Hup]].
  eapply prefix_lookup_Some; [|apply log_prefix_for_rows].
  - rewrite match_ratings_update_ratings_post. apply list_lookup_middle. done.
  - by apply wf_update_ratings_post.
Qed.



(** C4, amended.  When the surface of a valid match is none of the six keys
    of a player's dictionary, the loop stops at that row with [KeyError] for
    the surface, whatever rows follow: the winner and the loser have been
    referenced, and nothing else changed, so every rating reads as before
    and the log is as it was.  [process_matches] raises the same error. *)
Theorem unknown_key_halts (S : DateSort) pre m post l c0 c1 self0 self1 :
  wf_engine self0 →
  for_rows pre c0 self0 = (Ok c1, self1) →
  loser_of m = Some l →
  m_surface m ∉ entry_keys →
  ∃ self2,
    for_rows (pre ++ m :: post) c0 self0 = (Raise (KeyError (m_surface m)), self2) ∧
    self2 = materialize l (materialize (m_winner_id m) self1) ∧
    (∀ p key, rating self2 p key = rating self1 p key) ∧
    match_ratings self2 = match_ratings self1 ∧
    (∀ df, sort_values df = pre ++ m :: post →
       c0 = {| processed := 0; skipped := 0 |} →
       process_matches df self0 = (Raise (KeyError (m_surface m)), self2)).
Proof.
  intros Hwf0 Hpre Hl Hs.
  assert (Hwf1 : wf_engine self1).
  { pose proof (wf_for_rows pre self0 c0 Hwf0) as H. by rewrite Hpre in H. }
  assert (Hrun : for_rows (pre ++ m :: post) c0 self0 =
                 (Raise (KeyError (m_surface m)),
                  materialize l (materialize (m_winner_id m) self1))).
  { rewrite (for_rows_after_prefix _ _ _ _ _ _ _ Hpre).
    erewrite bind_Raise; [reflexivity|].
    rewrite loop_body_eq, Hl.
    erewrite bind_Raise; [reflexivity|]. by apply update_ratings_raises. }
  eexists. split; [exact Hrun|]. split; [done|]. split; [|split; [done|]].
  - intros p key. by rewrite !rating_materialize.
  - intros df Hdf ->. unfold process_matches, process_matches_loop.
    rewrite Hdf. by erewrite bind_Raise.
Qed.



(** C8.  Reading [self.ratings[p][key]] for a player [p] that the store has
    not seen, on an engine whose initial rating is the default 1500, returns
    1500 for the overall rating and for each of the four surfaces; it stores
    for [p] the default dictionary, in which those five ratings are 1500 and
    [matches_played] is 0, and changes neither another player nor the log. *)
Theorem unseen_player_defaults self p key :
  ratings self !! p = None →
  initial_rating self = default_initial_rating →
  key ∈ ({["overall"]} ∪ surfaces : gset string) →
  ∃ self',
    rating_get p key self = (Ok (of_Z 1500), self') ∧
    ratings self' = <[p := default_factory (of_Z 1500)]> (ratings self) ∧
    match_ratings self' = match_ratings self ∧
    (∀ dim, dim ∈ ({["overall"]} ∪ surfaces : gset string) →
       rating self' p dim = Some (of_Z 1500)) ∧
    rating self' p "matches_played" = Some (of_Z 0).
Proof.
  intros Hp Hi Hk.
  assert (Hdef : ∀ dim, dim ∈ ({["overall"]} ∪ surfaces : gset string) →
                   default_factory (of_Z 1500 : num) !! dim = Some (of_Z 1500)).
  { intros dim. unfold surfaces. rewrite !elem_of_union, !elem_of_singleton.
    intros [->|[[[->| ->]| ->]| ->]]; done. }
  exists (materialize p self). split; [|split; [|split; [done|split]]].
  - apply rating_get_Some. rewrite rating_unseen, Hi by done. by apply Hdef.
  - unfold materialize, entry_of; simpl. by rewrite Hp, Hi.
  - intros dim Hdim. rewrite rating_materialize, rating_unseen, Hi by done.
    by apply Hdef.
  - by rewrite rating_materialize, rating_unseen, Hi by done.
Qed.


End Properties.

(** ** Scenarios over the real numbers *)

Section Reals.

#[local] Abbreviation engine := (TennisEloSystem R).
Implicit Types (self : engine) (p q w l key k s : string).

Lemma rating_init (i kf : R) p key :
  rating (__init__ i kf) p key = default_factory i !! key.
Proof. by apply rating_unseen. Qed.

Lemma Rpower_10_pos (x : R) : (0 < Rpower 10 x)%R.
Proof. unfold Rpower. apply exp_pos. Qed.

Lemma change_level self (r : R) : change self r r = (k_factor self / 2)%R.
Proof.
  unfold change, expected_probability. cbn [of_Z add sub mul div pow R_Numeric].
  replace ((r - r) / 400)%R with 0%R by lra.
  rewrite Rpower_O by lra. lra.
Qed.


Lemma rating_new_engine p key :
  rating new_engine p key = default_factory 1500%R !! key.
Proof. unfold new_engine. by rewrite rating_init. Qed.

Lemma rating_new_engine_overall p : rating new_engine p "overall" = Some 1500%R.
Proof. by rewrite rating_new_engine. Qed.

Lemma rating_new_engine_surface p s : s ∈ surfaces → rating new_engine p s = Some 1500%R.
Proof.
  rewrite rating_new_engine. unfold surfaces.
  rewrite !elem_of_union, !elem_of_singleton.
  intros [[[->| ->]| ->]| ->]; done.
Qed.

Lemma rating_new_engine_matches_played p :
  rating new_engine p "matches_played" = Some 0%R.
Proof. by rewrite rating_new_engine. Qed.

Lemma Hard_surface : "Hard" ∈ surfaces.
Proof. unfold surfaces. rewrite !elem_of_union, !elem_of_singleton. tauto. Qed.

Lemma overall_no_surface : "overall" ∉ surfaces.
Proof.
  unfold surfaces. rewrite !elem_of_union, !elem_of_singleton.
  intros [[[?|?]|?]|?]; discriminate.
Qed.

Lemma Indoor_no_key : "Indoor" ∉ entry_keys.
Proof.
  unfold entry_keys. rewrite !elem_of_union, !elem_of_singleton.
  intros [[[[[?|?]|?]|?]|?]|?]; discriminate.
Qed.

Lemma process_matches_single (S : DateSort) m l self (wo lo ws ls : R) :
  wf_engine self →
  loser_of m = Some l →
  rating self (m_winner_id m) "overall" = Some wo →
  rating self l "overall" = Some lo →
  rating self (m_winner_id m) (m_surface m) = Some ws →
  rating self l (m_surface m) = Some ls →
  process_matches_loop [m] self =
    (Ok {| processed := 1; skipped := 0 |},
     update_ratings_post (m_winner_id m) l (m_surface m) (m_date m) 0 wo lo ws ls self).
Proof.
  intros Hwf Hl Hwo Hlo Hws Hls.
  pose proof (update_ratings_reads self (m_winner_id m) l (m_surface m) (m_date m)
                0 wo lo ws ls Hwf Hwo Hlo Hws Hls) as Hup.
  assert (Hbody : loop_body zero_counters m self =
            (Ok (count_processed zero_counters),
             update_ratings_post (m_winner_id m) l (m_surface m) (m_date m) 0
               wo lo ws ls self)).
  { rewrite loop_body_eq, Hl. by rewrite (bind_Ok _ _ _ _ _ Hup). }
  unfold process_matches_loop.
  rewrite sort_values_singleton. cbn [for_rows].
  by rewrite (bind_Ok _ _ _ _ _ Hbody).
Qed.

(** C7.  Scenario A.  On a new engine (initial rating 1500, K = 32), a
    batch of one match on Hard between two distinct players, won by [A]
    against [B], is processed and counted; afterwards [A] reads 1516 and
    [B] 1484 on the overall rating and on Hard, both have played one match,
    and the Clay, Grass and Carpet ratings of [A] still read 1500. *)
Theorem scenario_A (S : DateSort) (m : MatchRecord) (A B : string) :
  A ≠ B →
  m_winner_id m = A →
  loser_of m = Some B →
  m_surface m = "Hard" →
  ∃ self',
    process_matches_loop [m] new_engine =
      (Ok {| processed := 1; skipped := 0 |}, self') ∧
    rating self' A "overall" = Some 1516%R ∧
    rating self' B "overall" = Some 1484%R ∧
    rating self' A "Hard" = Some 1516%R ∧
    rating self' B "Hard" = Some 1484%R ∧
    rating self' A "matches_played" = Some 1%R ∧
    rating self' B "matches_played" = Some 1%R ∧
    rating self' A "Clay" = Some 1500%R ∧
    rating self' A "Grass" = Some 1500%R ∧
    rating self' A "Carpet" = Some 1500%R.
Proof.
  intros Hne Hw Hl Hs.
  eexists. split.
  { apply (process_matches_single S m B new_engine 1500 1500 1500 1500);
      [apply wf_init|done|apply rating_new_engine_overall..| |].
    - rewrite Hs. apply rating_new_engine_surface, Hard_surface.
    - rewrite Hs. apply rating_new_engine_surface, Hard_surface. }
  rewrite Hw, Hs, !rating_update_ratings_post.
  repeat split; repeat when_step;
    rewrite ?rating_new_engine_overall, ?rating_new_engine_matches_played,
      ?rating_new_engine_surface
      by (unfold surfaces; rewrite !elem_of_union, !elem_of_singleton; tauto);
    rewrite ?change_level; cbn; f_equal; lra.
Qed.


(** C4, counterexample.  The surface ['overall'] is not one of the four
    recognized surfaces, yet a match that carries it is processed without
    an error, and its surface update lands on the overall rating, which
    has then moved twice. *)
Lemma overall_surface_not_rejected :
  (m_surface match_overall ∉ surfaces) ∧
  (∃ self',
    process_matches_loop (DS := merge_DateSort) [match_overall] new_engine =
      (Ok {| processed := 1; skipped := 0 |}, self') ∧
    rating self' "A" "overall" = Some 1532%R ∧
    rating self' "B" "overall" = Some 1468%R).
Proof.
  split; [exact overall_no_surface|].
  eexists. split.
  { apply (process_matches_single merge_DateSort match_overall "B" new_engine
             1500 1500 1500 1500);
      [apply wf_init|done|apply rating_new_engine_overall..]. }
  cbn [m_winner_id m_surface match_overall].
  rewrite !rating_update_ratings_post.
  split; repeat when_step; rewrite rating_new_engine_overall, !change_level;
    cbn; f_equal; lra.
Qed.

End Reals.

(** ** The theorems at concrete inputs *)

Section Instances.

Lemma stranger_not_p1 : m_winner_id match_stranger ≠ p1_id match_stranger.
Proof. discriminate. Qed.

Lemma stranger_not_p2 : m_winner_id match_stranger ≠ p2_id match_stranger.
Proof. discriminate. Qed.

Lemma A_not_B : "A" ≠ "B".
Proof. discriminate. Qed.

Lemma Clay_dimension : "Clay" ∈ ({["overall"]} ∪ surfaces : gset string).
Proof. unfold surfaces. rewrite !elem_of_union, !elem_of_singleton. tauto. Qed.

Lemma AB_then_late_strict : StronglySorted date_lt [match_AB; match_late].
Proof. apply strict_pair. unfold date_lt; simpl. lia. Qed.

(** The first match of a batch on a new engine is logged at position 0 with
    index 0. *)
Lemma snapshot_causality_witness :
  ∃ snap,
    match_ratings (for_rows ([] ++ match_AB :: [match_late]) zero_counters new_engine).2
      !! 0%nat = Some snap ∧
    match_idx snap = 0%nat ∧
    rating new_engine "A" "overall" = Some (winner_elo_overall snap).
Proof.
  destruct (snapshot_causality [] match_AB [match_late] "B" zero_counters
              zero_counters new_engine new_engine)
    as (snap & H1 & H2 & _ & _ & _ & _ & H3 & _).
  - apply wf_init.
  - reflexivity.
  - reflexivity.
  - apply surfaces_keys, Hard_surface.
  - exists snap. split; [exact H1|]. split; [exact H2|exact H3].
Defined.



(** An indoor match stops the batch before the match that follows it. *)
Lemma unknown_key_halts_witness :
  ∃ self2,
    for_rows ([] ++ match_indoor :: [match_AB]) zero_counters new_engine =
      (Raise (KeyError "Indoor"), self2) ∧
    match_ratings self2 = [].
Proof.
  destruct (unknown_key_halts merge_DateSort [] match_indoor [match_AB] "B"
              zero_counters zero_counters new_engine new_engine)
    as (self2 & H1 & _ & _ & H2 & _).
  - apply wf_init.
  - reflexivity.
  - reflexivity.
  - exact Indoor_no_key.
  - exists self2. split; [exact H1|exact H2].
Defined.



Lemma scenario_A_witness :
  ∃ self',
    process_matches_loop (DS := merge_DateSort) [match_BA] new_engine =
      (Ok {| processed := 1; skipped := 0 |}, self') ∧
    rating self' "A" "overall" = Some 1516%R ∧
    rating self' "B" "overall" = Some 1484%R.
Proof.
  destruct (scenario_A merge_DateSort match_BA "A" "B" A_not_B eq_refl eq_refl eq_refl)
    as (self' & H1 & H2 & H3 & _).
  exists self'. split; [exact H1|]. split; [exact H2|exact H3].
Defined.

Lemma unseen_player_defaults_witness :
  ∃ self',
    rating_get "A" "Clay" new_engine = (Ok 1500%R, self') ∧
    rating self' "A" "matches_played" = Some 0%R.
Proof.
  destruct (unseen_player_defaults new_engine "A" "Clay" eq_refl eq_refl Clay_dimension)
    as (self' & H1 & _ & _ & _ & H2).
  exists self'. split; [exact H1|exact H2].
Defined.


End Instances.

(** ** More about the loop: indices, tracked players, invariants *)

(** Decides a guard that is an equation or a conjunction of equations. *)
Ltac when_atom :=
  match goal with
  | |- context [when ?P ?f ?o] =>
      first [ rewrite (when_False P f o) by (try intros [? ?]; congruence)
            | rewrite (when_True P f o) by (try split; congruence) ]
  end.

Section Batch.
Context {num : Type} `{!Numeric num}.

#[local] Abbreviation engine := (TennisEloSystem num).
Implicit Types (self : engine) (p q w l key k s : string) (c : counters)
  (m : MatchRecord) (rows pre post df : list MatchRecord).

(** *** One dimension of the closed form *)

Lemma rating_post_overall self w l s (dt : Z) (i : nat) (wo lo ws ls : num) p :
  s ∈ surfaces →
  rating (update_ratings_post w l s dt i wo lo ws ls self) p "overall" =
    when (l = p) (λ v, v - change self wo lo)%py
    (when (w = p) (λ v, v + change self wo lo)%py (rating self p "overall")).
Proof.
  intros Hs. destruct (surfaces_not_overall s Hs) as [Hso Hsm].
  rewrite rating_update_ratings_post.
  destruct (decide (w = p)) as [Hw|Hw], (decide (l = p)) as [Hl|Hl];
    by repeat when_atom.
Qed.

Lemma rating_post_surface self w l s (dt : Z) (i : nat) (wo lo ws ls : num) p :
  s ∈ surfaces →
  rating (update_ratings_post w l s dt i wo lo ws ls self) p s =
    when (l = p) (λ v, v - change self ws ls)%py
    (when (w = p) (λ v, v + change self ws ls)%py (rating self p s)).
Proof.
  intros Hs. destruct (surfaces_not_overall s Hs) as [Hso Hsm].
  rewrite rating_update_ratings_post.
  destruct (decide (w = p)) as [Hw|Hw], (decide (l = p)) as [Hl|Hl];
    by repeat when_atom.
Qed.

Lemma rating_post_matches_played self w l s (dt : Z) (i : nat) (wo lo ws ls : num) p :
  s ∈ surfaces →
  rating (update_ratings_post w l s dt i wo lo ws ls self) p "matches_played" =
    when (l = p) (λ v, v + of_Z 1)%py
    (when (w = p) (λ v, v + of_Z 1)%py (rating self p "matches_played")).
Proof.
  intros Hs. destruct (surfaces_not_overall s Hs) as [Hso Hsm].
  rewrite rating_update_ratings_post.
  destruct (decide (w = p)) as [Hw|Hw], (decide (l = p)) as [Hl|Hl];
    by repeat when_atom.
Qed.

Lemma rating_post_other self w l s (dt : Z) (i : nat) (wo lo ws ls : num) p key :
  key ≠ "overall" → key ≠ s → key ≠ "matches_played" →
  rating (update_ratings_post w l s dt i wo lo ws ls self) p key = rating self p key.
Proof. intros Ho Hk Hm. rewrite rating_update_ratings_post. by repeat when_atom. Qed.

Lemma dom_ratings_update_ratings_post self w l s (dt : Z) (i : nat) (wo lo ws ls : num) :
  dom (ratings (update_ratings_post w l s dt i wo lo ws ls self)) =
    {[w; l]} ∪ dom (ratings self).
Proof.
  unfold update_ratings_post.
  rewrite !dom_ratings_adjust, ratings_set_match_ratings, !dom_ratings_materialize.
  apply set_eq. intros x. rewrite !elem_of_union, !elem_of_singleton. tauto.
Qed.

(** *** One iteration, by cases *)

Lemma row_ok_key m : row_ok m → is_Some (loser_of m) → m_surface m ∈ entry_keys.
Proof. intros Hok Hv. by apply surfaces_keys, Hok. Qed.

Lemma loser_of_players m l :
  loser_of m = Some l →
  (m_winner_id m = p1_id m ∧ l = p2_id m) ∨ (m_winner_id m = p2_id m ∧ l = p1_id m).
Proof. unfold loser_of. repeat case_decide; naive_solver. Qed.

Lemma loop_body_cases c m self :
  wf_engine self → row_ok m →
  (loser_of m = None ∧ loop_body c m self = (Ok (count_skipped c), self)) ∨
  (∃ l wo lo ws ls,
     loser_of m = Some l ∧ m_surface m ∈ surfaces ∧
     rating self (m_winner_id m) "overall" = Some wo ∧
     rating self l "overall" = Some lo ∧
     rating self (m_winner_id m) (m_surface m) = Some ws ∧
     rating self l (m_surface m) = Some ls ∧
     loop_body c m self =
       (Ok (count_processed c),
        update_ratings_post (m_winner_id m) l (m_surface m) (m_date m)
          (processed c) wo lo ws ls self)).
Proof.
  intros Hwf Hok. rewrite loop_body_eq.
  destruct (loser_of m) as [l|] eqn:El; [right|left; done].
  assert (Hs : m_surface m ∈ surfaces) by (apply Hok; by rewrite El).
  destruct (update_ratings_succeeds self (m_winner_id m) l (m_surface m)
              (m_date m) (processed c) Hwf (surfaces_keys _ Hs))
    as (wo & lo & ws & ls & Hwo & Hlo & Hws & Hls & Hup).
  exists l, wo, lo, ws, ls. rewrite (bind_Ok _ _ _ _ _ Hup). done.
Qed.

Lemma valid_rows_cons_valid m rows :
  is_Some (loser_of m) → valid_rows (m :: rows) = m :: valid_rows rows.
Proof. intros Hv. unfold valid_rows. by rewrite filter_cons_True. Qed.

Lemma valid_rows_cons_invalid m rows :
  loser_of m = None → valid_rows (m :: rows) = valid_rows rows.
Proof.
  intros Hv. unfold valid_rows. rewrite filter_cons_False; [done|].
  rewrite Hv. by intros [? ?].
Qed.

Lemma valid_rows_perm rows rows' : rows ≡ₚ rows' → valid_rows rows ≡ₚ valid_rows rows'.
Proof. intros Hp. unfold valid_rows. by rewrite Hp. Qed.

Lemma valid_rows_length rows : (length (valid_rows rows) ≤ length rows)%nat.
Proof. unfold valid_rows. apply length_filter. Qed.

Lemma row_ok_perm rows rows' : rows ≡ₚ rows' → Forall row_ok rows' → Forall row_ok rows.
Proof. intros Hp. by rewrite Hp. Qed.

(** *** Indices and counters *)

Lemma for_rows_indices rows : ∀ c self,
  wf_engine self → Forall row_ok rows →
  ∃ c' self' new,
    for_rows rows c self = (Ok c', self') ∧
    wf_engine self' ∧
    match_ratings self' = match_ratings self ++ new ∧
    match_idx <$> new = seq (processed c) (length (valid_rows rows)) ∧
    processed c' = processed c + length (valid_rows rows) ∧
    skipped c' = skipped c + (length rows - length (valid_rows rows)).
Proof.
  induction rows as [|m rows IH]; intros c self Hwf Hall.
  - exists c, self, []. simpl. rewrite app_nil_r. repeat split; try done; lia.
  - apply Forall_cons in Hall as [Hm Hall]. cbn [for_rows].
    pose proof (valid_rows_length rows) as Hlen.
    destruct (loop_body_cases c m self Hwf Hm)
      as [[Hl Hb]|(l & wo & lo & ws & ls & Hl & _ & _ & _ & _ & _ & Hb)].
    + destruct (IH (count_skipped c) self Hwf Hall)
        as (c' & self' & new & E & Hwf' & Hlog & Hidx & Hp & Hs).
      change (processed (count_skipped c)) with (processed c) in *.
      change (skipped (count_skipped c)) with (skipped c + 1) in *.
      exists c', self', new. rewrite (bind_Ok _ _ _ _ _ Hb).
      rewrite valid_rows_cons_invalid by done.
      do 4 (split; [done|]). cbn [length]. lia.
    + destruct (IH (count_processed c) _
                  (wf_update_ratings_post self (m_winner_id m) l (m_surface m)
                     (m_date m) (processed c) wo lo ws ls Hwf) Hall)
        as (c' & self' & new & E & Hwf' & Hlog & Hidx & Hp & Hs).
      change (processed (count_processed c)) with (processed c + 1) in *.
      change (skipped (count_processed c)) with (skipped c) in *.
      exists c', self',
        (snapshot_of (m_winner_id m) l (m_surface m) (m_date m) (processed c)
           wo lo ws ls :: new).
      rewrite (bind_Ok _ _ _ _ _ Hb).
      rewrite valid_rows_cons_valid by (by rewrite Hl).
      rewrite match_ratings_update_ratings_post, <- app_assoc in Hlog.
      split; [exact E|]. split; [exact Hwf'|]. split; [exact Hlog|].
      split; [|cbn [length]; lia].
      rewrite fmap_cons, Hidx. cbn [length seq match_idx snapshot_of].
      by rewrite Nat.add_1_r.
Qed.


(** *** Tracked players *)

Lemma elem_of_participants p rows :
  p ∈ participants rows ↔
  ∃ r, r ∈ rows ∧ is_Some (loser_of r) ∧ (p1_id r = p ∨ p2_id r = p).
Proof.
  unfold participants, valid_rows.
  rewrite elem_of_union, !elem_of_list_to_set, !list_elem_of_fmap.
  split.
  - intros [(r & -> & Hr)|(r & -> & Hr)]; apply list_elem_of_filter in Hr as [Hv Hr];
      exists r; eauto.
  - intros (r & Hr & Hv & [<-|<-]); [left|right]; exists r;
      (split; [done|]); by apply list_elem_of_filter.
Qed.

Lemma participants_perm rows rows' : rows ≡ₚ rows' → participants rows = participants rows'.
Proof.
  intros Hp. apply set_eq. intros p. rewrite !elem_of_participants.
  by setoid_rewrite Hp.
Qed.

Lemma participants_cons_valid m rows l :
  loser_of m = Some l →
  participants (m :: rows) = {[m_winner_id m; l]} ∪ participants rows.
Proof.
  intros Hl. apply set_eq. intros p.
  rewrite elem_of_union, !elem_of_participants, elem_of_union, !elem_of_singleton.
  split.
  - intros (r & Hr & Hv & Hp). apply elem_of_cons in Hr as [->|Hr].
    + left. destruct (loser_of_players m l Hl) as [[-> ->]|[-> ->]];
        destruct Hp as [<-|<-]; tauto.
    + right. eauto.
  - intros [Hp|(r & Hr & Hv & Hp)].
    + exists m. split; [left|]. split; [by rewrite Hl|].
      destruct (loser_of_players m l Hl) as [[E1 E2]|[E1 E2]];
        rewrite E1, E2 in Hp; destruct Hp as [->| ->]; tauto.
    + exists r. split; [by right|done].
Qed.

Lemma participants_cons_invalid m rows :
  loser_of m = None → participants (m :: rows) = participants rows.
Proof.
  intros Hl. unfold participants. by rewrite valid_rows_cons_invalid.
Qed.

Lemma for_rows_dom rows : ∀ c self,
  wf_engine self → Forall row_ok rows →
  dom (ratings (for_rows rows c self).2) = dom (ratings self) ∪ participants rows.
Proof.
  induction rows as [|m rows IH]; intros c self Hwf Hall.
  - simpl. unfold participants, valid_rows. simpl.
    apply set_eq. intros x. rewrite !elem_of_union, elem_of_empty. tauto.
  - apply Forall_cons in Hall as [Hm Hall]. cbn [for_rows].
    destruct (loop_body_cases c m self Hwf Hm)
      as [[Hl Hb]|(l & wo & lo & ws & ls & Hl & _ & _ & _ & _ & _ & Hb)];
      rewrite (bind_Ok _ _ _ _ _ Hb).
    + rewrite IH by done. by rewrite participants_cons_invalid.
    + rewrite IH by (done || by apply wf_update_ratings_post).
      rewrite dom_ratings_update_ratings_post, (participants_cons_valid m rows l Hl).
      apply set_eq. intros x. rewrite !elem_of_union. tauto.
Qed.


(** *** A batch without a valid row *)

Lemma for_rows_all_invalid rows : ∀ c self,
  Forall (λ r, loser_of r = None) rows →
  for_rows rows c self =
    (Ok {| processed := processed c; skipped := skipped c + length rows |}, self).
Proof.
  induction rows as [|m rows IH]; intros c self Hall.
  - simpl. unfold ret. destruct c; simpl. by rewrite Nat.add_0_r.
  - apply Forall_cons in Hall as [Hm Hall]. cbn [for_rows].
    erewrite bind_Ok; [|rewrite loop_body_eq, Hm; reflexivity].
    rewrite IH by done. cbn [length processed skipped count_skipped].
    do 3 f_equal. lia.
Qed.

(** X3.  A batch in which no row names one of its two players as the
    winner (the empty batch is one) leaves the engine as it was, store and
    log, and counts every row as skipped. *)
Theorem process_matches_nothing_valid (S : DateSort) df (self : engine) :
  Forall (λ r, loser_of r = None) df →
  process_matches_loop df self =
    (Ok {| processed := 0; skipped := length df |}, self).
Proof.
  intros Hall. unfold process_matches_loop.
  rewrite for_rows_all_invalid by (by rewrite sort_values_perm).
  by rewrite (Permutation_length (sort_values_perm df)).
Qed.

(** *** Invariants of every run *)

Lemma config_update_ratings self w l s (dt : Z) (i : nat) :
  wf_engine self →
  initial_rating (update_ratings w l s dt i self).2 = initial_rating self ∧
  k_factor (update_ratings w l s dt i self).2 = k_factor self.
Proof.
  intros Hwf. destruct (decide (s ∈ entry_keys)) as [Hs|Hs].
  - by destruct (update_ratings_succeeds self w l s dt i Hwf Hs)
      as (wo & lo & ws & ls & _ & _ & _ & _ & ->).
  - by rewrite update_ratings_raises.
Qed.

Lemma config_for_rows rows : ∀ c self,
  wf_engine self →
  initial_rating (for_rows rows c self).2 = initial_rating self ∧
  k_factor (for_rows rows c self).2 = k_factor self.
Proof.
  induction rows as [|m rows IH]; intros c self Hwf; [done|].
  cbn [for_rows].
  pose proof (wf_loop_body self c m Hwf) as Hwf'.
  assert (Hcfg : initial_rating (loop_body c m self).2 = initial_rating self ∧
                 k_factor (loop_body c m self).2 = k_factor self).
  { rewrite loop_body_eq. destruct (loser_of m) as [l|]; [|done].
    pose proof (config_update_ratings self (m_winner_id m) l (m_surface m)
                  (m_date m) (processed c) Hwf) as H.
    unfold bind. by destruct (update_ratings _ _ _ _ _ self) as [[[]|e] self']. }
  unfold bind. destruct (loop_body c m self) as [[c'|e] self']; [|done].
  cbn [snd] in Hwf', Hcfg. destruct (IH c' self' Hwf') as [-> ->]. done.
Qed.

(** X4.  Whatever the batch, and whether the loop finishes or stops with an
    error, the engine that a run leaves behind from a new engine is well
    formed: for every player, tracked or not, reading one of the six keys
    gives a value and reading any other key gives none; and the initial
    rating and the K-factor are those the engine was built with. *)
Theorem process_matches_keeps_shape (S : DateSort) df (i kf : num) :
  (∀ p key,
     is_Some (rating (process_matches_loop df (__init__ i kf)).2 p key) ↔
     key ∈ entry_keys) ∧
  initial_rating (process_matches_loop df (__init__ i kf)).2 = i ∧
  k_factor (process_matches_loop df (__init__ i kf)).2 = kf.
Proof.
  unfold process_matches_loop.
  pose proof (wf_for_rows (sort_values df) (__init__ i kf)
                {| processed := 0; skipped := 0 |} (wf_init i kf)) as Hwf.
  split; [|exact (config_for_rows _ _ _ (wf_init i kf))].
  intros p key. split.
  - intros Hsome. destruct (decide (key ∈ entry_keys)) as [|Hn]; [done|].
    rewrite (rating_None _ p key Hwf Hn) in Hsome. by destruct Hsome.
  - by apply rating_is_Some.
Qed.

(** *** What one dimension depends on *)

Lemma change_same_k self1 self2 (rw rl : num) :
  k_factor self1 = k_factor self2 → change self1 rw rl = change self2 rw rl.
Proof. intros Hk. unfold change. by rewrite Hk. Qed.

Lemma for_rows_surface_isolated s rows :
  s ∈ surfaces →
  ∀ c1 c2 self1 self2,
    wf_engine self1 → wf_engine self2 →
    k_factor self1 = k_factor self2 →
    (∀ p, rating self1 p s = rating self2 p s) →
    Forall row_ok rows →
    ∀ p, rating (for_rows rows c1 self1).2 p s =
         rating (for_rows (filter (λ r, m_surface r = s) rows) c2 self2).2 p s.
Proof.
  intros Hs. destruct (surfaces_not_overall s Hs) as [Hso Hsm].
  induction rows as [|m rows IH]; intros c1 c2 self1 self2 Hwf1 Hwf2 Hk Hrel Hall.
  - done.
  - apply Forall_cons in Hall as [Hm Hall]. cbn [for_rows].
    destruct (loop_body_cases c1 m self1 Hwf1 Hm)
      as [[Hl Hb]|(l & wo & lo & ws & ls & Hl & Hsm' & _ & _ & Hws & Hls & Hb)];
      rewrite (bind_Ok _ _ _ _ _ Hb).
    + destruct (decide (m_surface m = s)) as [Hms|Hms].
      * rewrite filter_cons_True by done. cbn [for_rows].
        erewrite (bind_Ok (loop_body c2 m)); [|rewrite loop_body_eq, Hl; reflexivity].
        by apply IH.
      * rewrite filter_cons_False by done. by apply IH.
    + destruct (decide (m_surface m = s)) as [Hms|Hms].
      * rewrite filter_cons_True by done. cbn [for_rows].
        destruct (loop_body_cases c2 m self2 Hwf2 Hm)
          as [[Hl2 _]|(l2 & wo2 & lo2 & ws2 & ls2 & Hl2 & _ & _ & _ & Hws2 & Hls2 & Hb2)];
          [congruence|].
        rewrite (bind_Ok _ _ _ _ _ Hb2).
        assert (l2 = l) as -> by congruence.
        rewrite Hms in *.
        assert (ws2 = ws) as -> by (rewrite Hrel in Hws; congruence).
        assert (ls2 = ls) as -> by (rewrite Hrel in Hls; congruence).
        apply IH; [by apply wf_update_ratings_post|by apply wf_update_ratings_post
                  |done| |done].
        intros q. rewrite !rating_post_surface by done.
        by rewrite (change_same_k self1 self2 ws ls Hk), Hrel.
      * rewrite filter_cons_False by done.
        apply IH; [by apply wf_update_ratings_post|done|done| |done].
        intros q. rewrite rating_post_other by done. apply Hrel.
Qed.


Lemma same_match_loser_of a b : same_match a b → loser_of a = loser_of b.
Proof. intros (H1 & H2 & H3). unfold loser_of. by rewrite H1, H2, H3. Qed.

Lemma for_rows_overall_related rows1 : ∀ rows2 c1 c2 self1 self2,
  wf_engine self1 → wf_engine self2 →
  k_factor self1 = k_factor self2 →
  (∀ p, rating self1 p "overall" = rating self2 p "overall") →
  Forall2 same_match rows1 rows2 →
  Forall row_ok rows1 → Forall row_ok rows2 →
  ∀ p, rating (for_rows rows1 c1 self1).2 p "overall" =
       rating (for_rows rows2 c2 self2).2 p "overall".
Proof.
  induction rows1 as [|m1 rows1 IH];
    intros rows2 c1 c2 self1 self2 Hwf1 Hwf2 Hk Hrel Hsame Hall1 Hall2.
  - apply Forall2_nil_inv_l in Hsame as ->. done.
  - apply Forall2_cons_inv_l in Hsame as (m2 & rows2' & Hm & Hsame & ->).
    apply Forall_cons in Hall1 as [Hok1 Hall1].
    apply Forall_cons in Hall2 as [Hok2 Hall2].
    pose proof (same_match_loser_of m1 m2 Hm) as Hlos.
    destruct Hm as (_ & _ & Hwin).
    cbn [for_rows].
    destruct (loop_body_cases c1 m1 self1 Hwf1 Hok1)
      as [[Hl Hb]|(l & wo & lo & ws & ls & Hl & Hs1 & Hwo & Hlo & _ & _ & Hb)];
      destruct (loop_body_cases c2 m2 self2 Hwf2 Hok2)
      as [[Hl2 Hb2]|(l2 & wo2 & lo2 & ws2 & ls2 & Hl2 & Hs2 & Hwo2 & Hlo2 & _ & _ & Hb2)];
      try congruence;
      rewrite (bind_Ok _ _ _ _ _ Hb), (bind_Ok _ _ _ _ _ Hb2).
    + by apply IH.
    + assert (l2 = l) as -> by congruence.
      rewrite <- Hwin in *.
      assert (wo2 = wo) as -> by (rewrite Hrel in Hwo; congruence).
      assert (lo2 = lo) as -> by (rewrite Hrel in Hlo; congruence).
      apply IH; [by apply wf_update_ratings_post|by apply wf_update_ratings_post
                |done| |done|done|done].
      intros q. rewrite !rating_post_overall by done.
      by rewrite (change_same_k self1 self2 wo lo Hk), Hrel.
Qed.


End Batch.

(** ** The rating table *)

Section TableFacts.
Context {num : Type} `{!Numeric num}.

#[local] Abbreviation engine := (TennisEloSystem num).
Implicit Types (self : engine) (p : string) (d : gmap string num).

Lemma dict_getitem_Some d key (v : num) self :
  d !! key = Some v → dict_getitem d key self = (Ok v, self).
Proof. intros E. unfold dict_getitem. by rewrite E. Qed.

Lemma rating_row_ok p d self :
  dom d = entry_keys →
  ∃ row, rating_row p d self = (Ok row, self) ∧ row_reads (p, d) row.
Proof.
  intros Hdom.
  assert (Hkey : ∀ key, key ∈ entry_keys → is_Some (d !! key)).
  { intros key Hk. apply elem_of_dom. by rewrite Hdom. }
  assert (Hin : ∀ key, key ∈ surfaces → key ∈ entry_keys) by apply surfaces_keys.
  destruct (Hkey "overall" overall_key) as [o Ho].
  destruct (Hkey "Hard") as [h Hh].
  { apply Hin. unfold surfaces. rewrite !elem_of_union, !elem_of_singleton. tauto. }
  destruct (Hkey "Clay") as [c Hc].
  { apply Hin. unfold surfaces. rewrite !elem_of_union, !elem_of_singleton. tauto. }
  destruct (Hkey "Grass") as [g Hg].
  { apply Hin. unfold surfaces. rewrite !elem_of_union, !elem_of_singleton. tauto. }
  destruct (Hkey "Carpet") as [t Ht].
  { apply Hin. unfold surfaces. rewrite !elem_of_union, !elem_of_singleton. tauto. }
  destruct (Hkey "matches_played" matches_played_key) as [n Hn].
  eexists. split.
  - unfold rating_row.
    rewrite (bind_Ok _ _ _ _ _ (dict_getitem_Some d _ _ self Ho)).
    rewrite (bind_Ok _ _ _ _ _ (dict_getitem_Some d _ _ self Hh)).
    rewrite (bind_Ok _ _ _ _ _ (dict_getitem_Some d _ _ self Hc)).
    rewrite (bind_Ok _ _ _ _ _ (dict_getitem_Some d _ _ self Hg)).
    rewrite (bind_Ok _ _ _ _ _ (dict_getitem_Some d _ _ self Ht)).
    rewrite (bind_Ok _ _ _ _ _ (dict_getitem_Some d _ _ self Hn)).
    reflexivity.
  - by repeat split.
Qed.

Lemma rating_rows_ok (items : list (string * gmap string num)) self :
  Forall (λ item, dom item.2 = entry_keys) items →
  ∃ rows, rating_rows items self = (Ok rows, self) ∧ Forall2 row_reads items rows.
Proof.
  induction items as [|[p d] items IH]; intros Hall.
  - exists []. split; [done|constructor].
  - apply Forall_cons in Hall as [Hd Hall].
    destruct (rating_row_ok p d self Hd) as (row & Hrow & Hreads).
    destruct (IH Hall) as (rows & Hrows & Hrel).
    exists (row :: rows). split; [|by constructor].
    cbn [rating_rows].
    rewrite (bind_Ok _ _ _ _ _ Hrow), (bind_Ok _ _ _ _ _ Hrows). done.
Qed.

Lemma row_reads_inj item (row row' : RatingRow num) :
  row_reads item row → row_reads item row' → row = row'.
Proof.
  intros (H1 & H2 & H3 & H4 & H5 & H6 & H7) (H1' & H2' & H3' & H4' & H5' & H6' & H7').
  destruct row, row'. simpl in *. congruence.
Qed.


End TableFacts.

(** ** More over the real numbers *)

Section RealFacts.

#[local] Abbreviation engine := (TennisEloSystem R).
Implicit Types (self : engine) (p q w l key k s : string) (c : counters)
  (m : MatchRecord) (rows df : list MatchRecord).

Lemma expected_probability_real (Ra Rb : R) :
  expected_probability Ra Rb = (1 / (1 + Rpower 10 ((Rb - Ra) / 400)))%R.
Proof. done. Qed.

Lemma expected_probability_level (r : R) : expected_probability r r = (1 / 2)%R.
Proof.
  rewrite expected_probability_real.
  replace ((r - r) / 400)%R with 0%R by lra.
  rewrite Rpower_O by lra. lra.
Qed.

Lemma expected_probability_lt (Ra Rb Ra' Rb' : R) :
  (Ra - Rb < Ra' - Rb')%R →
  (expected_probability Ra Rb < expected_probability Ra' Rb')%R.
Proof.
  intros Hlt. rewrite !expected_probability_real.
  pose proof (Rpower_10_pos ((Rb - Ra) / 400)) as Hx.
  pose proof (Rpower_10_pos ((Rb' - Ra') / 400)) as Hy.
  assert (Hpow : (Rpower 10 ((Rb' - Ra') / 400) < Rpower 10 ((Rb - Ra) / 400))%R).
  { apply Rpower_lt; lra. }
  set (x := Rpower 10 ((Rb - Ra) / 400)) in *.
  set (y := Rpower 10 ((Rb' - Ra') / 400)) in *.
  unfold Rdiv. rewrite !Rmult_1_l.
  apply Rinv_lt_contravar; [|lra].
  apply Rmult_lt_0_compat; lra.
Qed.

Lemma expected_probability_range (Ra Rb : R) :
  (0 < expected_probability Ra Rb < 1)%R.
Proof.
  rewrite expected_probability_real.
  pose proof (Rpower_10_pos ((Rb - Ra) / 400)) as Hx.
  set (x := Rpower 10 ((Rb - Ra) / 400)) in *.
  unfold Rdiv. rewrite Rmult_1_l. split.
  - apply Rinv_0_lt_compat. lra.
  - rewrite <- Rinv_1 at 2. apply Rinv_lt_contravar; lra.
Qed.



Lemma change_bounds self (rw rl : R) :
  (0 < k_factor self)%R →
  (0 < change self rw rl < k_factor self)%R ∧
  ((k_factor self / 2 < change self rw rl)%R ↔ (rw < rl)%R).
Proof.
  intros Hk. unfold change. cbn [of_Z add sub mul div pow R_Numeric].
  destruct (expected_probability_range rw rl) as [H0 H1].
  pose proof (expected_probability_lt rl rl rw rl) as Hup.
  pose proof (expected_probability_lt rw rl rl rl) as Hdown.
  rewrite expected_probability_level in Hup, Hdown.
  split; [split; nra|].
  split.
  - intros H. apply Rnot_le_lt. intros Hle.
    destruct Hle as [Hlt|Heq].
    + assert (1 / 2 < expected_probability rw rl)%R by (apply Hup; lra). nra.
    + subst. rewrite expected_probability_level in H. nra.
  - intros H. assert (expected_probability rw rl < 1 / 2)%R by (apply Hdown; lra).
    nra.
Qed.


(** *** Matches played *)

Lemma appearances_perm p rows rows' :
  rows ≡ₚ rows' → appearances p rows = appearances p rows'.
Proof.
  intros Hp. unfold appearances.
  by rewrite (valid_rows_perm _ _ Hp).
Qed.

Lemma appearances_cons_invalid p m rows :
  loser_of m = None → appearances p (m :: rows) = appearances p rows.
Proof. intros Hl. unfold appearances. by rewrite valid_rows_cons_invalid. Qed.

Lemma appearances_cons_valid p m rows l :
  loser_of m = Some l →
  appearances p (m :: rows) =
    ((if decide (m_winner_id m = p) then 1 else 0) +
     (if decide (l = p) then 1 else 0) + appearances p rows)%nat.
Proof.
  intros Hl. unfold appearances.
  rewrite valid_rows_cons_valid by (by rewrite Hl).
  rewrite !filter_cons.
  destruct (loser_of_players m l Hl) as [[-> ->]|[-> ->]];
    repeat case_decide; cbn [length]; lia.
Qed.

Lemma for_rows_matches_played rows : ∀ c self,
  wf_engine self → Forall row_ok rows →
  ∀ p, rating (for_rows rows c self).2 p "matches_played" =
       (λ v, v + INR (appearances p rows))%R <$> rating self p "matches_played".
Proof.
  induction rows as [|m rows IH]; intros c self Hwf Hall p.
  - destruct (rating_is_Some self p "matches_played" Hwf matches_played_key)
      as [v Hv].
    cbn [for_rows ret snd]. rewrite Hv. cbn. f_equal. unfold appearances. cbn. lra.
  - apply Forall_cons in Hall as [Hm Hall]. cbn [for_rows].
    destruct (loop_body_cases c m self Hwf Hm)
      as [[Hl Hb]|(l & wo & lo & ws & ls & Hl & Hs & _ & _ & _ & _ & Hb)];
      rewrite (bind_Ok _ _ _ _ _ Hb).
    + rewrite IH by done. by rewrite appearances_cons_invalid.
    + rewrite IH by (done || by apply wf_update_ratings_post).
      rewrite rating_post_matches_played by done.
      rewrite (appearances_cons_valid p m rows l Hl).
      destruct (rating_is_Some self p "matches_played" Hwf matches_played_key)
        as [v Hv]. rewrite Hv.
      destruct (decide (m_winner_id m = p)) as [Hw|Hw],
               (decide (l = p)) as [Hlp|Hlp];
        repeat when_atom; cbn [fmap option_fmap option_map];
        f_equal; cbn [of_Z add R_Numeric]; rewrite !plus_INR; cbn [INR]; lra.
Qed.


(** *** The sum of the ratings *)

Lemma total_of_insert_None key (m : gmap string (gmap string R)) p d :
  m !! p = None →
  total_of key (<[p := d]> m) = (default 0 (d !! key) + total_of key m)%R.
Proof.
  intros Hp. unfold total_of.
  rewrite map_fold_insert_L; [done| |done].
  intros j1 j2 z1 z2 y _ _ _. lra.
Qed.

Lemma total_of_insert_Some key (m : gmap string (gmap string R)) p d d0 :
  m !! p = Some d0 →
  total_of key (<[p := d]> m) =
    (default 0 (d !! key) + total_of key m - default 0 (d0 !! key))%R.
Proof.
  intros Hp. rewrite <- insert_delete_eq.
  rewrite total_of_insert_None by apply lookup_delete_eq.
  assert (E : total_of key m =
              (default 0 (d0 !! key) + total_of key (delete p m))%R).
  { unfold total_of. rewrite (map_fold_delete_L _ _ p d0 m); [done| |done].
    intros j1 j2 z1 z2 y _ _ _. lra. }
  rewrite E. lra.
Qed.

Lemma default_factory_rating (i : R) key :
  key ∈ ({["overall"]} ∪ surfaces : gset string) →
  default_factory i !! key = Some i.
Proof.
  unfold surfaces. rewrite !elem_of_union, !elem_of_singleton.
  intros [->|[[[->| ->]| ->]| ->]]; done.
Qed.

Lemma excess_set_match_ratings key self (log : list (Snapshot R)) :
  excess_rating key (set_match_ratings log self) = excess_rating key self.
Proof. done. Qed.

Lemma excess_materialize key self p :
  key ∈ ({["overall"]} ∪ surfaces : gset string) →
  excess_rating key (materialize p self) = excess_rating key self.
Proof.
  intros Hkey. destruct (ratings self !! p) as [d|] eqn:E.
  - rewrite materialize_seen by (by eexists). done.
  - unfold excess_rating, total_rating, materialize, entry_of. rewrite E. cbn.
    rewrite total_of_insert_None, map_size_insert_None by done.
    rewrite (default_factory_rating _ key Hkey), S_INR. cbn. lra.
Qed.

Lemma excess_adjust key self p key' (f : R → R) (c : R) :
  wf_engine self → p ∈ dom (ratings self) → key' ∈ entry_keys →
  (∀ v, f v = v + c)%R →
  excess_rating key (adjust_rating p key' f self) =
    (excess_rating key self + if decide (key' = key) then c else 0)%R.
Proof.
  intros Hwf Hp Hk Hf. apply elem_of_dom in Hp as [d Hd].
  assert (Hdk : is_Some (d !! key')).
  { apply elem_of_dom. by rewrite (Hwf p d Hd). }
  destruct Hdk as [v Hv].
  unfold excess_rating, total_rating, adjust_rating, entry_of. rewrite Hd. cbn.
  rewrite (total_of_insert_Some key _ p _ d Hd).
  rewrite map_size_insert_Some by (by eexists).
  rewrite lookup_alter. case_decide as Hkk.
  - subst key'. rewrite Hv. cbn. rewrite Hf. lra.
  - lra.
Qed.

Lemma excess_update_ratings_post key self w l s (dt : Z) (i : nat) (wo lo ws ls : R) :
  wf_engine self → s ∈ surfaces →
  key ∈ ({["overall"]} ∪ surfaces : gset string) →
  excess_rating key (update_ratings_post w l s dt i wo lo ws ls self) =
    excess_rating key self.
Proof.
  intros Hwf Hs Hkey.
  assert (Hmp : "matches_played" ≠ key).
  { intros <-. revert Hkey. unfold surfaces.
    rewrite !elem_of_union, !elem_of_singleton.
    intros [?|[[[?|?]|?]|?]]; discriminate. }
  pose proof (surfaces_keys s Hs) as Hsk.
  unfold update_ratings_post.
  set (s0 := set_match_ratings _ (materialize l (materialize w self))).
  assert (Hwf0 : wf_engine s0) by (by do 2 apply wf_materialize).
  assert (Hdom : ∀ t q, q ∈ dom (ratings t) →
            ∀ p' k' (f : R → R), q ∈ dom (ratings (adjust_rating p' k' f t))).
  { intros t q Hq p' k' f. rewrite dom_ratings_adjust, elem_of_union. by right. }
  assert (Hw0 : w ∈ dom (ratings s0)).
  { unfold s0. rewrite ratings_set_match_ratings, !dom_ratings_materialize.
    rewrite !elem_of_union, !elem_of_singleton. tauto. }
  assert (Hl0 : l ∈ dom (ratings s0)).
  { unfold s0. rewrite ratings_set_match_ratings, !dom_ratings_materialize.
    rewrite !elem_of_union, !elem_of_singleton. tauto. }
  rewrite (excess_adjust key _ l "matches_played" _ (1%R));
    [|by do 5 apply wf_adjust|by do 5 apply Hdom|apply matches_played_key|done].
  rewrite (excess_adjust key _ w "matches_played" _ (1%R));
    [|by do 4 apply wf_adjust|by do 4 apply Hdom|apply matches_played_key|done].
  rewrite (excess_adjust key _ l s _ (- change self ws ls)%R);
    [|by do 3 apply wf_adjust|by do 3 apply Hdom|done|intros v; cbn; lra].
  rewrite (excess_adjust key _ w s _ (change self ws ls));
    [|by do 2 apply wf_adjust|by do 2 apply Hdom|done|done].
  rewrite (excess_adjust key _ l "overall" _ (- change self wo lo)%R);
    [|by apply wf_adjust|by apply Hdom|apply overall_key|intros v; cbn; lra].
  rewrite (excess_adjust key _ w "overall" _ (change self wo lo));
    [|done|done|apply overall_key|done].
  unfold s0. rewrite excess_set_match_ratings, !excess_materialize by done.
  repeat case_decide; try congruence; lra.
Qed.

Lemma for_rows_excess key rows : ∀ c self,
  wf_engine self → Forall row_ok rows →
  key ∈ ({["overall"]} ∪ surfaces : gset string) →
  excess_rating key (for_rows rows c self).2 = excess_rating key self.
Proof.
  induction rows as [|m rows IH]; intros c self Hwf Hall Hkey; [done|].
  apply Forall_cons in Hall as [Hm Hall]. cbn [for_rows].
  destruct (loop_body_cases c m self Hwf Hm)
    as [[Hl Hb]|(l & wo & lo & ws & ls & Hl & Hs & _ & _ & _ & _ & Hb)];
    rewrite (bind_Ok _ _ _ _ _ Hb).
  - by apply IH.
  - rewrite IH by (done || by apply wf_update_ratings_post).
    by apply excess_update_ratings_post.
Qed.

Lemma excess_init key (i kf : R) : excess_rating key (__init__ i kf) = 0%R.
Proof.
  unfold excess_rating, total_rating, total_of. cbn [ratings initial_rating __init__].
  rewrite map_fold_empty, map_size_empty. cbn [INR]. lra.
Qed.


End RealFacts.

(** ** Surface labels: from the cleaning step to the engine *)

Lemma surface_mapping_values : map_Forall (λ _ r, r ∈ surfaces) surface_mapping.
Proof.
  assert (Hs : ∀ r, r = "Hard" ∨ r = "Clay" ∨ r = "Grass" ∨ r = "Carpet" → r ∈ surfaces).
  { intros r. unfold surfaces. rewrite !elem_of_union, !elem_of_singleton. tauto. }
  unfold surface_mapping.
  repeat (apply map_Forall_insert_2; [apply Hs; tauto|]).
  apply map_Forall_empty.
Qed.

Section UpstreamFacts.
Variables (str_strip str_lower : string → string).

Lemma standardize_surface_in_surfaces surface r :
  standardize_surface str_strip str_lower surface = Some r → r ∈ surfaces.
Proof.
  destruct surface as [raw|]; [|done]. cbn [standardize_surface].
  intros [= <-].
  destruct (surface_mapping !! str_lower (str_strip raw)) as [r|] eqn:E; cbn.
  - exact (surface_mapping_values _ _ E).
  - apply Hard_surface.
Qed.

(** X13.  [standardize_surface] gives no label exactly for a missing cell;
    for every other cell, whatever its text and however [strip] and [lower]
    treat it, the label is one of Hard, Clay, Grass and Carpet. *)
Theorem standardize_surface_recognized surface :
  (standardize_surface str_strip str_lower surface = None ↔ surface = None) ∧
  (∀ r, standardize_surface str_strip str_lower surface = Some r → r ∈ surfaces).
Proof.
  split; [|intros r; apply standardize_surface_in_surfaces].
  by destruct surface.
Qed.


(** X15.  Cleaning twice is cleaning once: when [strip] and [lower] turn the
    four labels into their lower-case spelling, as they do,
    [standardize_surface] maps each of its results to itself. *)
Theorem standardize_surface_idempotent surface :
  str_lower (str_strip "Hard") = "hard" →
  str_lower (str_strip "Clay") = "clay" →
  str_lower (str_strip "Grass") = "grass" →
  str_lower (str_strip "Carpet") = "carpet" →
  standardize_surface str_strip str_lower
    (standardize_surface str_strip str_lower surface) =
  standardize_surface str_strip str_lower surface.
Proof.
  intros HH HC HG HK.
  destruct (standardize_surface str_strip str_lower surface) as [r|] eqn:E; [|done].
  pose proof (standardize_surface_in_surfaces _ _ E) as Hr.
  unfold surfaces in Hr. rewrite !elem_of_union, !elem_of_singleton in Hr.
  cbn [standardize_surface].
  destruct Hr as [[[->| ->]| ->]| ->]; by rewrite ?HH, ?HC, ?HG, ?HK.
Qed.

End UpstreamFacts.

(** ** The store: writes, frames, and the order of the rows *)

Section StoreFacts.
Context {num : Type} `{!Numeric num}.

#[local] Abbreviation engine := (TennisEloSystem num).
Implicit Types (self : engine) (p q w l key k s : string) (c : counters)
  (m a b : MatchRecord) (rows pre post df : list MatchRecord).

Lemma rating_iadd_raises self p key (x : num) :
  rating self p key = None →
  rating_iadd p key x self = (Raise (KeyError key), materialize p self).
Proof.
  intros E. unfold rating_iadd, bind. rewrite ratings_getitem_eq.
  unfold dict_getitem. unfold rating in E. by rewrite E.
Qed.

Lemma ratings_adjust_seen self p key (f : num → num) :
  is_Some (ratings (adjust_rating p key f self) !! p).
Proof. unfold adjust_rating; simpl. rewrite lookup_insert_eq. by eexists. Qed.

(** X16.  [self.ratings[p][key] += x] on a well-formed engine.  For one of
    the six keys it succeeds; reading the rating back gives the old value
    plus [x], and that read changes nothing; every other rating of every
    player reads as before.  For any other key it raises [KeyError] for the
    key, and the only trace is that [p] has been referenced. *)
Theorem rating_iadd_then_get self p key (x : num) :
  wf_engine self →
  (key ∈ entry_keys →
     ∃ v self',
       rating self p key = Some v ∧
       rating_iadd p key x self = (Ok (), self') ∧
       rating_get p key self' = (Ok (v + x)%py, self') ∧
       ∀ q k', (q, k') ≠ (p, key) → rating self' q k' = rating self q k') ∧
  (key ∉ entry_keys →
     rating_iadd p key x self = (Raise (KeyError key), materialize p self)).
Proof.
  intros Hwf. split.
  - intros Hk. destruct (rating_is_Some self p key Hwf Hk) as [v Hv].
    exists v, (adjust_rating p key (λ v, v + x)%py self).
    split; [done|]. split; [by eapply rating_iadd_Some|]. split.
    + rewrite (rating_get_Some _ p key (v + x)%py).
      * by rewrite materialize_seen by apply ratings_adjust_seen.
      * rewrite rating_adjust, decide_True by done. by rewrite Hv.
    + intros q k' Hne. rewrite rating_adjust, decide_False; [done|].
      intros [-> ->]. done.
  - intros Hk. apply rating_iadd_raises. by apply rating_None.
Qed.

(** *** Players outside a batch *)

Lemma ratings_update_ratings_post_ne self w l s (dt : Z) (i : nat) (wo lo ws ls : num) q :
  q ≠ w → q ≠ l →
  ratings (update_ratings_post w l s dt i wo lo ws ls self) !! q = ratings self !! q.
Proof.
  intros Hw Hl. unfold update_ratings_post.
  rewrite !ratings_adjust_ne, ratings_set_match_ratings by done.
  by rewrite !ratings_materialize_ne by done.
Qed.

Lemma for_rows_frame rows : ∀ c self q,
  wf_engine self → Forall row_ok rows → q ∉ participants rows →
  ratings (for_rows rows c self).2 !! q = ratings self !! q.
Proof.
  induction rows as [|m rows IH]; intros c self q Hwf Hall Hq; [done|].
  apply Forall_cons in Hall as [Hm Hall]. cbn [for_rows].
  destruct (loop_body_cases c m self Hwf Hm)
    as [[Hl Hb]|(l & wo & lo & ws & ls & Hl & _ & _ & _ & _ & _ & Hb)];
    rewrite (bind_Ok _ _ _ _ _ Hb).
  - apply IH; [done|done|]. by rewrite participants_cons_invalid in Hq.
  - rewrite (participants_cons_valid m rows l Hl) in Hq.
    rewrite !not_elem_of_union, !not_elem_of_singleton in Hq.
    destruct Hq as [[Hw Hlq] Hq].
    rewrite IH by (done || by apply wf_update_ratings_post).
    by apply ratings_update_ratings_post_ne.
Qed.

(** X17.  A batch leaves alone the players it does not list in a valid row:
    after the loop their dictionaries are the ones that were stored, and a
    player that was not tracked is still not tracked. *)
Theorem process_matches_frame (S : DateSort) df self q :
  wf_engine self → Forall row_ok df → q ∉ participants df →
  ratings (process_matches_loop df self).2 !! q = ratings self !! q.
Proof.
  intros Hwf Hall Hq. unfold process_matches_loop.
  apply for_rows_frame; [done|by apply (row_ok_perm _ _ (sort_values_perm df))|].
  by rewrite (participants_perm _ _ (sort_values_perm df)).
Qed.

(** *** Rows that can change places *)

Lemma for_rows_same_readings rows : ∀ c1 c2 self1 self2,
  wf_engine self1 → wf_engine self2 →
  k_factor self1 = k_factor self2 →
  (∀ p key, rating self1 p key = rating self2 p key) →
  Forall row_ok rows →
  ∀ p key, rating (for_rows rows c1 self1).2 p key =
           rating (for_rows rows c2 self2).2 p key.
Proof.
  induction rows as [|m rows IH]; intros c1 c2 self1 self2 Hwf1 Hwf2 Hk Hrel Hall.
  - done.
  - apply Forall_cons in Hall as [Hm Hall]. cbn [for_rows].
    destruct (loop_body_cases c1 m self1 Hwf1 Hm)
      as [[Hl Hb]|(l & wo & lo & ws & ls & Hl & Hs & Hwo & Hlo & Hws & Hls & Hb)];
      destruct (loop_body_cases c2 m self2 Hwf2 Hm)
      as [[Hl2 Hb2]|(l2 & wo2 & lo2 & ws2 & ls2 & Hl2 & _ & Hwo2 & Hlo2 & Hws2 & Hls2 & Hb2)];
      try congruence;
      rewrite (bind_Ok _ _ _ _ _ Hb), (bind_Ok _ _ _ _ _ Hb2).
    + by apply IH.
    + assert (l2 = l) as -> by congruence.
      assert (wo2 = wo) as -> by (rewrite Hrel in Hwo; congruence).
      assert (lo2 = lo) as -> by (rewrite Hrel in Hlo; congruence).
      assert (ws2 = ws) as -> by (rewrite Hrel in Hws; congruence).
      assert (ls2 = ls) as -> by (rewrite Hrel in Hls; congruence).
      apply IH; [by apply wf_update_ratings_post|by apply wf_update_ratings_post
                |done| |done].
      intros q key. rewrite !rating_update_ratings_post.
      by rewrite (change_same_k self1 self2 wo lo Hk),
        (change_same_k self1 self2 ws ls Hk), Hrel.
Qed.

Lemma rating_post_ne_player self w l s (dt : Z) (i : nat) (wo lo ws ls : num) q key :
  q ≠ w → q ≠ l →
  rating (update_ratings_post w l s dt i wo lo ws ls self) q key = rating self q key.
Proof.
  intros Hw Hl. rewrite rating_update_ratings_post. by repeat when_atom.
Qed.

Lemma no_common_player_losers a b la lb :
  no_common_player a b → loser_of a = Some la → loser_of b = Some lb →
  m_winner_id a ≠ m_winner_id b ∧ m_winner_id a ≠ lb ∧
  la ≠ m_winner_id b ∧ la ≠ lb.
Proof.
  intros (H1 & H2 & H3 & H4) Ha Hb.
  destruct (loser_of_players a la Ha) as [[-> ->]|[-> ->]];
    destruct (loser_of_players b lb Hb) as [[-> ->]|[-> ->]]; done.
Qed.

Lemma for_rows_pair_swap a b c c' self :
  wf_engine self → row_ok a → row_ok b → no_common_player a b →
  ∀ p key, rating (for_rows [a; b] c self).2 p key =
           rating (for_rows [b; a] c' self).2 p key.
Proof.
  intros Hwf Ha Hb Hdis p key. cbn [for_rows].
  destruct (loop_body_cases c a self Hwf Ha)
    as [[Hla Hba]|(la & woa & loa & wsa & lsa & Hla & Hsa & Hwoa & Hloa & Hwsa & Hlsa & Hba)];
    destruct (loop_body_cases c' b self Hwf Hb)
    as [[Hlb Hbb]|(lb & wob & lob & wsb & lsb & Hlb & Hsb & Hwob & Hlob & Hwsb & Hlsb & Hbb)];
    rewrite (bind_Ok _ _ _ _ _ Hba), (bind_Ok _ _ _ _ _ Hbb).
  - erewrite (bind_Ok (loop_body _ b)); [|rewrite loop_body_eq, Hlb; reflexivity].
    erewrite (bind_Ok (loop_body _ a)); [|rewrite loop_body_eq, Hla; reflexivity].
    done.
  - destruct (loop_body_cases (count_skipped c) b self Hwf Hb)
      as [[? _]|(l2 & wo2 & lo2 & ws2 & ls2 & Hl2 & _ & Hwo2 & Hlo2 & Hws2 & Hls2 & Hb2)];
      [congruence|].
    rewrite (bind_Ok _ _ _ _ _ Hb2).
    erewrite (bind_Ok (loop_body _ a)); [|rewrite loop_body_eq, Hla; reflexivity].
    assert (l2 = lb) as -> by congruence.
    assert (wo2 = wob) as -> by congruence.
    assert (lo2 = lob) as -> by congruence.
    assert (ws2 = wsb) as -> by congruence.
    assert (ls2 = lsb) as -> by congruence.
    cbn [for_rows ret snd]. by rewrite !rating_update_ratings_post.
  - erewrite (bind_Ok (loop_body _ b)); [|rewrite loop_body_eq, Hlb; reflexivity].
    destruct (loop_body_cases (count_skipped c') a self Hwf Ha)
      as [[? _]|(l2 & wo2 & lo2 & ws2 & ls2 & Hl2 & _ & Hwo2 & Hlo2 & Hws2 & Hls2 & Hb2)];
      [congruence|].
    rewrite (bind_Ok _ _ _ _ _ Hb2).
    assert (l2 = la) as -> by congruence.
    assert (wo2 = woa) as -> by congruence.
    assert (lo2 = loa) as -> by congruence.
    assert (ws2 = wsa) as -> by congruence.
    assert (ls2 = lsa) as -> by congruence.
    cbn [for_rows ret snd]. by rewrite !rating_update_ratings_post.
  - destruct (no_common_player_losers a b la lb Hdis Hla Hlb) as (N1 & N2 & N3 & N4).
    set (sa := update_ratings_post (m_winner_id a) la (m_surface a) (m_date a)
                 (processed c) woa loa wsa lsa self).
    set (sb := update_ratings_post (m_winner_id b) lb (m_surface b) (m_date b)
                 (processed c') wob lob wsb lsb self).
    assert (Hwfa : wf_engine sa) by (by apply wf_update_ratings_post).
    assert (Hwfb : wf_engine sb) by (by apply wf_update_ratings_post).
    destruct (loop_body_cases (count_processed c) b sa Hwfa Hb)
      as [[? _]|(l2 & wo2 & lo2 & ws2 & ls2 & Hl2 & _ & Hwo2 & Hlo2 & Hws2 & Hls2 & Hb2)];
      [congruence|].
    destruct (loop_body_cases (count_processed c') a sb Hwfb Ha)
      as [[? _]|(l3 & wo3 & lo3 & ws3 & ls3 & Hl3 & _ & Hwo3 & Hlo3 & Hws3 & Hls3 & Hb3)];
      [congruence|].
    rewrite (bind_Ok _ _ _ _ _ Hb2), (bind_Ok _ _ _ _ _ Hb3).
    assert (l2 = lb) as -> by congruence.
    assert (l3 = la) as -> by congruence.
    unfold sa in Hwo2, Hlo2, Hws2, Hls2.
    rewrite rating_post_ne_player in Hwo2, Hlo2, Hws2, Hls2 by done.
    unfold sb in Hwo3, Hlo3, Hws3, Hls3.
    rewrite rating_post_ne_player in Hwo3, Hlo3, Hws3, Hls3 by done.
    assert (wo2 = wob) as -> by congruence.
    assert (lo2 = lob) as -> by congruence.
    assert (ws2 = wsb) as -> by congruence.
    assert (ls2 = lsb) as -> by congruence.
    assert (wo3 = woa) as -> by congruence.
    assert (lo3 = loa) as -> by congruence.
    assert (ws3 = wsa) as -> by congruence.
    assert (ls3 = lsa) as -> by congruence.
    cbn [for_rows ret snd]. unfold sa, sb.
    rewrite !rating_update_ratings_post.
    rewrite !(change_same_k (update_ratings_post _ _ _ _ _ _ _ _ _ self) self)
      by done.
    destruct (decide (m_winner_id a = p)) as [Ea|Ea];
      destruct (decide (la = p)) as [Ela|Ela];
      destruct (decide (m_winner_id b = p)) as [Eb|Eb];
      destruct (decide (lb = p)) as [Elb|Elb];
      try congruence; by repeat when_atom.
Qed.


End StoreFacts.

(** ** The further theorems at concrete inputs *)

Section MoreInstances.

Lemma AB_ok : row_ok match_AB.
Proof. intros _. exact Hard_surface. Qed.

Lemma late_ok : row_ok match_late.
Proof.
  intros _. unfold surfaces. cbn [m_surface match_late].
  rewrite !elem_of_union, !elem_of_singleton. tauto.
Qed.

Lemma stranger_ok : row_ok match_stranger.
Proof. intros [l Hl]. discriminate Hl. Qed.

Lemma AB_late_ok : Forall row_ok [match_AB; match_late].
Proof.
  apply Forall_cons_2; [exact AB_ok|].
  apply Forall_cons_2; [exact late_ok|apply Forall_nil_2].
Qed.

Lemma AB_stranger_ok : Forall row_ok [match_AB; match_stranger].
Proof.
  apply Forall_cons_2; [exact AB_ok|].
  apply Forall_cons_2; [exact stranger_ok|apply Forall_nil_2].
Qed.

Lemma C_not_listed : "C" ∉ participants [match_AB; match_stranger].
Proof.
  rewrite elem_of_participants. intros (r & Hr & Hv & Hp).
  apply elem_of_cons in Hr as [->|Hr].
  - destruct Hp as [Hp|Hp]; discriminate Hp.
  - apply list_elem_of_singleton in Hr as ->. destruct Hv as [l Hl]. discriminate Hl.
Qed.



Lemma process_matches_nothing_valid_witness :
  process_matches_loop (DS := merge_DateSort) [match_stranger] new_engine =
    (Ok {| processed := 0; skipped := 1 |}, new_engine).
Proof.
  apply (process_matches_nothing_valid merge_DateSort [match_stranger] new_engine).
  apply Forall_cons_2; [reflexivity|apply Forall_nil_2].
Defined.


Lemma AB_clay_ok : row_ok match_AB_clay.
Proof.
  intros _. unfold surfaces. cbn [m_surface match_AB_clay].
  rewrite !elem_of_union, !elem_of_singleton. tauto.
Qed.



Lemma one_positive : (0 < k_factor new_engine)%R.
Proof. cbn. lra. Qed.



Lemma overall_dimension : "overall" ∈ ({["overall"]} ∪ surfaces : gset string).
Proof. rewrite elem_of_union, elem_of_singleton. tauto. Qed.



Lemma standardize_surface_idempotent_witness :
  standardize_surface ascii_strip ascii_lower
    (standardize_surface ascii_strip ascii_lower (Some "Red Clay")) =
  standardize_surface ascii_strip ascii_lower (Some "Red Clay").
Proof.
  apply (standardize_surface_idempotent ascii_strip ascii_lower (Some "Red Clay"));
    reflexivity.
Defined.

Lemma rating_iadd_then_get_witness :
  ∃ (v : R) self',
    rating_iadd "A" "Clay" 16%R new_engine = (Ok (), self') ∧
    rating_get "A" "Clay" self' = (Ok (v + 16)%R, self').
Proof.
  destruct (proj1 (rating_iadd_then_get new_engine "A" "Clay" 16%R (wf_init _ _)))
    as (v & self' & _ & H1 & H2 & _).
  - apply surfaces_keys. unfold surfaces.
    rewrite !elem_of_union, !elem_of_singleton. tauto.
  - exists v, self'. split; [exact H1|exact H2].
Defined.

Lemma process_matches_frame_witness :
  ratings (process_matches_loop (DS := merge_DateSort)
             [match_AB; match_stranger] new_engine).2 !! "C" = None.
Proof.
  rewrite (process_matches_frame merge_DateSort [match_AB; match_stranger] new_engine "C"
             (wf_init _ _) AB_stranger_ok C_not_listed).
  reflexivity.
Defined.

Lemma CD_ok : row_ok match_CD.
Proof.
  intros _. unfold surfaces. cbn [m_surface match_CD].
  rewrite !elem_of_union, !elem_of_singleton. tauto.
Qed.

Lemma AB_CD_no_common_player : no_common_player match_AB match_CD.
Proof. repeat split; discriminate. Qed.


End MoreInstances.

Lemma round_mapping_values : map_Forall (λ _ r, r ∈ round_codes) round_mapping.
Proof.
  assert (Hs : ∀ r, r = "R1" ∨ r = "R2" ∨ r = "R3" ∨ r = "R4" ∨ r = "QF" ∨
                    r = "SF" ∨ r = "F" → r ∈ round_codes).
  { intros r. unfold round_codes. rewrite !elem_of_cons. tauto. }
  unfold round_mapping.
  repeat (apply map_Forall_insert_2; [apply Hs; tauto|]).
  apply map_Forall_empty.
Qed.

Lemma round_codes_not_keys r : r ∈ round_codes → round_mapping !! r = None.
Proof.
  revert r. apply Forall_forall. unfold round_codes.
  repeat (apply Forall_cons_2; [reflexivity|]). apply Forall_nil_2.
Qed.

Section RoundFacts.
Variable (str_strip : string → string).

(** X19.  [standardize_round] gives no code exactly for a missing cell, and
    cleaning twice is cleaning once: for a cell whose stripped text [strip]
    leaves alone, as it leaves alone the seven codes, [standardize_round]
    maps its result to itself.  The result is one of the codes R1, R2, R3,
    R4, QF, SF, F or the stripped text of the cell. *)
Theorem standardize_round_idempotent cell :
  str_strip (str_strip cell) = str_strip cell →
  Forall (λ r, str_strip r = r) round_codes →
  (∃ r, standardize_round str_strip (Some cell) = Some r ∧
        (r ∈ round_codes ∨ r = str_strip cell)) ∧
  standardize_round str_strip (standardize_round str_strip (Some cell)) =
    standardize_round str_strip (Some cell).
Proof.
  intros Hstrip Hcodes. rewrite Forall_forall in Hcodes.
  cbn [standardize_round].
  destruct (round_mapping !! str_strip cell) as [r|] eqn:E; cbn [default];
    unfold Datatypes.id.
  - pose proof (round_mapping_values _ _ E) as Hr.
    split; [exists r; split; [done|by left]|].
    cbn [standardize_round]. unfold Datatypes.id.
    by rewrite (Hcodes r Hr), (round_codes_not_keys r Hr).
  - split; [exists (str_strip cell); split; [done|by right]|].
    cbn [standardize_round]. by rewrite Hstrip, E.
Qed.

End RoundFacts.

(** A quarter-final with blanks around its name. *)
Lemma standardize_round_idempotent_witness :
  standardize_round ascii_strip
    (standardize_round ascii_strip (Some " Quarterfinals ")) =
  standardize_round ascii_strip (Some " Quarterfinals ").
Proof.
  apply (standardize_round_idempotent ascii_strip " Quarterfinals ").
  - reflexivity.
  - unfold round_codes. repeat (apply Forall_cons_2; [reflexivity|]).
    apply Forall_nil_2.
Defined.
